(** * A Vulkan compute-dispatch runtime: Context.h and the hardsigmoid kernel

    The development embeds two source files:
    - [aten/src/ATen/native/vulkan/glsl/hardsigmoid_.glsl], the in-place
      elementwise kernel (module [Hardsigmoid]);
    - [aten/src/ATen/native/vulkan/api/Context.h], the device context with
      its accessors and the [dispatch] template (later modules). *)

From Stdlib Require Import ZArith QArith Lqa SpecFloat.
From stdpp Require Import gmap list strings.

Local Open Scope Z_scope.

(** ** hardsigmoid_.glsl *)

Module Hardsigmoid.

(** The shader is compiled once per [$precision]; the scalar arithmetic of
    the chosen float format is therefore an interface of the kernel. *)
Class Precision (F : Type) := {
  flit : Q → F;           (* a decimal literal such as [6.0] *)
  fdiv : F → F → F;       (* [/] *)
  fadd : F → F → F;       (* [+] *)
  flt  : F → F → bool;    (* [<] *)
}.

Section Kernel.
Context {F : Type} `{Precision F}.

(** GLSL [min], [max] and [clamp] on scalars, as the GLSL specification
    defines them from [<]. *)
Definition fmin (x y : F) : F := if flt y x then y else x.
Definition fmax (x y : F) : F := if flt x y then y else x.
Definition clamp (x minVal maxVal : F) : F := fmin (fmax x minVal) maxVal.

Record vec4 := Vec4 { vx : F; vy : F; vz : F; vw : F }.

Definition vmap (f : F → F) (v : vec4) : vec4 :=
  Vec4 (f (vx v)) (f (vy v)) (f (vz v)) (f (vw v)).

(** [vec4 / float], [vec4 + float] and [clamp(vec4, float, float)] act on
    each component. *)
Definition vdiv (v : vec4) (s : F) : vec4 := vmap (λ x, fdiv x s) v.
Definition vadd (v : vec4) (s : F) : vec4 := vmap (λ x, fadd x s) v.
Definition vclamp (v : vec4) (lo hi : F) : vec4 := vmap (λ x, clamp x lo hi) v.

Definition splat (x : F) : vec4 := Vec4 x x x x.

(** A property of every component. *)
Definition vall (P : F → Prop) (v : vec4) : Prop :=
  P (vx v) ∧ P (vy v) ∧ P (vz v) ∧ P (vw v).

End Kernel.
Arguments vec4 F : clear implicits.

Record ivec3 := IVec3 { ix : Z; iy : Z; iz : Z }.
Record ivec4 := IVec4 { jx : Z; jy : Z; jz : Z; jw : Z }.
Record uvec3 := UVec3 { ux : Z; uy : Z; uz : Z }.
Record bvec3 := BVec3 { bx : bool; by' : bool; bz : bool }.

#[global] Instance ivec3_eq_dec : EqDecision ivec3.
Proof. solve_decision. Defined.
#[global] Instance uvec3_eq_dec : EqDecision uvec3.
Proof. solve_decision. Defined.
#[global] Instance ivec3_countable : Countable ivec3.
Proof.
  refine (inj_countable' (λ p, (ix p, iy p, iz p))
                         (λ t, IVec3 t.1.1 t.1.2 t.2) _).
  by intros [].
Defined.

(** The swizzle [.xyz]. *)
Definition xyz (v : ivec4) : ivec3 := IVec3 (jx v) (jy v) (jz v).

(** Conversion of a 32-bit unsigned component to a 32-bit signed one keeps
    the bit pattern. *)
Definition int_of_uint (u : Z) : Z :=
  let m := u mod 2 ^ 32 in if m <? 2 ^ 31 then m else m - 2 ^ 32.

Definition ivec3_of_uvec3 (u : uvec3) : ivec3 :=
  IVec3 (int_of_uint (ux u)) (int_of_uint (uy u)) (int_of_uint (uz u)).

Definition lessThan (a b : ivec3) : bvec3 :=
  BVec3 (ix a <? ix b) (iy a <? iy b) (iz a <? iz b).

Definition all (b : bvec3) : bool := bx b && by' b && bz b.

(** An image is the finite map from the coordinates of its texels to their
    values.  An access outside the image is undefined in GLSL: it is [None]
    here. *)
Abbreviation image3D F := (gmap ivec3 (vec4 F)).

Definition imageLoad {F} (img : image3D F) (pos : ivec3) : option (vec4 F) :=
  img !! pos.

Definition imageStore {F} (img : image3D F) (pos : ivec3) (data : vec4 F)
  : option (image3D F) :=
  match img !! pos with
  | Some _ => Some (<[pos := data]> img)
  | None => None
  end.

Section Main.
Context {F : Type} `{Precision F}.

(** [void main()]: one invocation, identified by [gl_GlobalInvocationID],
    over the image [uOutput] and the uniform [uBlock.size]. *)
Definition main (uOutput : image3D F) (uBlock_size : ivec4)
    (gl_GlobalInvocationID : uvec3) : option (image3D F) :=
  let pos := ivec3_of_uvec3 gl_GlobalInvocationID in
  if all (lessThan pos (xyz uBlock_size)) then
    texel ← imageLoad uOutput pos;
    let outval := vadd (vdiv texel (flit 6.0)) (flit 0.5) in
    imageStore uOutput pos (vclamp outval (flit 0.0) (flit 1.0))
  else Some uOutput.

(** The guard of [main]. *)
Definition in_extent (p : ivec3) (size : ivec4) : bool :=
  all (lessThan p (xyz size)).

(** The scalar function the kernel applies to each component. *)
Definition hardsigmoid (x : F) : F :=
  clamp (fadd (fdiv x (flit 6.0)) (flit 0.5)) (flit 0.0) (flit 1.0).

(** A dispatch runs [main] once per invocation id.  The invocations are
    independent of each other; they are run here in the order of [ids]. *)
Fixpoint invoke_all (ids : list uvec3) (uOutput : image3D F)
    (uBlock_size : ivec4) : option (image3D F) :=
  match ids with
  | [] => Some uOutput
  | gid :: rest =>
      img ← main uOutput uBlock_size gid;
      invoke_all rest img uBlock_size
  end.

End Main.

(** The invocation ids of a grid of [nx * ny * nz] invocations. *)
Definition grid (nx ny nz : Z) : list uvec3 :=
  x ← seqZ 0 nx; y ← seqZ 0 ny; z ← seqZ 0 nz; [UVec3 x y z].

(** An image of [w * h * d] texels, every texel holding [v]. *)
Definition texel_coords (w h d : Z) : list ivec3 :=
  x ← seqZ 0 w; y ← seqZ 0 h; z ← seqZ 0 d; [IVec3 x y z].

Definition filled {F} (w h d : Z) (v : vec4 F) : image3D F :=
  gset_to_gmap v (list_to_set (texel_coords w h d)).

(** An invocation id whose components convert to int without wrapping. *)
Definition below_sign_bit (g : uvec3) : Prop :=
  (0 ≤ ux g < 2 ^ 31) ∧ (0 ≤ uy g < 2 ^ 31) ∧ (0 ≤ uz g < 2 ^ 31).

(** The image has a texel at every position of the extents. *)
Definition covers {F} (img : image3D F) (size : ivec4) : Prop :=
  ∀ p, (0 ≤ ix p < jx size) ∧ (0 ≤ iy p < jy size) ∧ (0 ≤ iz p < jz size) →
       is_Some (img !! p).

(** *** Two float formats *)

(** Exact rational arithmetic, results kept in lowest terms. *)
#[global] Instance exact_precision : Precision Q := {
  flit q := Qred q;
  fdiv x y := Qred (x / y);
  fadd x y := Qred (x + y);
  flt x y := negb (Qle_bool y x);
}.

(** IEEE 754 binary32 with round to nearest even. *)
Definition b32_of_Z (z : Z) : spec_float := binary_normalize 24 128 z 0 false.

#[global] Instance binary32_precision : Precision spec_float := {
  flit q := SFdiv 24 128 (b32_of_Z (Qnum q)) (b32_of_Z (Zpos (Qden q)));
  fdiv := SFdiv 24 128;
  fadd := SFadd 24 128;
  flt := SFltb;
}.

End Hardsigmoid.

(** ** Context.h *)

Module Vulkan.

Local Open Scope nat_scope.

(** *** Native objects

    A native handle is an address handed out by the driver;
    [VK_NULL_HANDLE] is 0. *)
Abbreviation Handle := nat.
Definition VK_NULL_HANDLE : Handle := 0.
Definition VK_SHADER_STAGE_COMPUTE_BIT : Z := 32.

(** Modelled from the spec: the resource kinds of Resource.h, which is not
    among the sources: image, buffer, uniform block. *)
Inductive ResourceKind := KindImage | KindBuffer | KindUniform.

(** Modelled from the spec: [Shader::Layout::Signature] of Shader.h, which
    is not among the sources.  A binding signature is an ordered sequence of
    (resource kind, pipeline stage, count) tuples. *)
Record Slot := { slot_kind : ResourceKind; slot_stage : Z; slot_count : nat }.
Abbreviation Signature := (list Slot).

(** Modelled from the spec: [Shader::Descriptor] of Shader.h.  A kernel
    descriptor identifies a compiled kernel plus its specialization
    constants. *)
Record ShaderDescriptor := { kernel : string; constants : list Z }.

(** Modelled from the spec: [Shader::WorkGroup] of Shader.h, a 3D extent. *)
Record WorkGroup := { wg_x : Z; wg_y : Z; wg_z : Z }.

(** Modelled from the spec: [Shader::Layout::Object] of Shader.h, the
    descriptor-set layout with the signature it was made from.  Context.h
    reads its [handle]. *)
Record LayoutObject := { handle : Handle; signature : Signature }.

(** Modelled from the spec: the bindable resources of Resource.h, which is
    not among the sources.  A bindable resource is an image, a buffer or a
    uniform block. *)
Inductive Resource :=
  | ImageObject (h : Handle)
  | BufferObject (h : Handle)
  | UniformObject (h : Handle).

#[global] Instance ResourceKind_eq_dec : EqDecision ResourceKind.
Proof. solve_decision. Defined.
#[global] Instance ResourceKind_countable : Countable ResourceKind.
Proof.
  refine (inj_countable'
    (λ k, match k with KindImage => 0 | KindBuffer => 1 | KindUniform => 2 end)
    (λ n, match n with 0 => KindImage | 1 => KindBuffer | _ => KindUniform end)
    _).
  by intros [].
Defined.
#[global] Instance Slot_eq_dec : EqDecision Slot.
Proof. solve_decision. Defined.
#[global] Instance Slot_countable : Countable Slot.
Proof.
  refine (inj_countable' (λ s, (slot_kind s, slot_stage s, slot_count s))
                         (λ t, Build_Slot t.1.1 t.1.2 t.2) _).
  by intros [].
Defined.
#[global] Instance ShaderDescriptor_eq_dec : EqDecision ShaderDescriptor.
Proof. solve_decision. Defined.
#[global] Instance ShaderDescriptor_countable : Countable ShaderDescriptor.
Proof.
  refine (inj_countable' (λ s, (kernel s, constants s))
                         (λ t, Build_ShaderDescriptor t.1 t.2) _).
  by intros [].
Defined.
#[global] Instance WorkGroup_eq_dec : EqDecision WorkGroup.
Proof. solve_decision. Defined.
#[global] Instance WorkGroup_countable : Countable WorkGroup.
Proof.
  refine (inj_countable' (λ g, (wg_x g, wg_y g, wg_z g))
                         (λ t, Build_WorkGroup t.1.1 t.1.2 t.2) _).
  by intros [].
Defined.
#[global] Instance LayoutObject_eq_dec : EqDecision LayoutObject.
Proof. solve_decision. Defined.
#[global] Instance Resource_eq_dec : EqDecision Resource.
Proof. solve_decision. Defined.

(** What the driver knows about a native object: the parameters it was
    created with. *)
Inductive NativeObject :=
  | ObjPhysicalDevice
  | ObjDevice (physical : Handle)
  | ObjQueue (device : Handle)
  | ObjDescriptorSetLayout (sig : Signature)
  | ObjShaderModule (sd : ShaderDescriptor)
  | ObjPipelineLayout (set_layout : Handle) (push_constant_size : nat)
  | ObjPipeline (layout module : Handle) (local_size : WorkGroup)
  | ObjDescriptorSet (set_layout : Handle).

#[global] Instance NativeObject_eq_dec : EqDecision NativeObject.
Proof. solve_decision. Defined.

(** The objects the caches own, as opposed to the transient ones. *)
Definition cached (o : NativeObject) : bool :=
  match o with
  | ObjDescriptorSetLayout _ | ObjShaderModule _
  | ObjPipelineLayout _ _ | ObjPipeline _ _ _ => true
  | _ => false
  end.

(** The calls that reach the driver or a cache, in program order. *)
Inductive Event :=
  | EvRetrieve (key : NativeObject) (h : Handle) (created : bool)
  | EvPushConstants (cb layout : Handle) (stage : Z) (offset size : nat)
                    (data : list Byte.byte)
  | EvBindPipeline (cb pipeline : Handle)
  | EvAllocate (set_layout set : Handle)
  | EvUpdate (set : Handle) (binding : nat) (r : Resource)
  | EvBindDescriptorSet (cb set : Handle)
  | EvDispatch (cb : Handle) (global : WorkGroup)
  | EvSubmit (cb : Handle)
  | EvWaitIdle (queue : Handle)
  | EvResetPool.

(** *** The Context and its subsystems *)

(** Modelled from the spec: [Adapter] of Adapter.h, the physical device. *)
Record Adapter := { physical_device : Handle }.

(** Modelled from the spec: [Command] of Command.h, the command buffers it
    manages. *)
Record Command := { command_pool : list Handle }.

(** Modelled from the spec: [Shader] of Shader.h, two caches: from a
    binding signature to a descriptor-set layout ([shader.layout.cache]) and
    from a kernel descriptor to a shader module ([shader.cache]). *)
Record Shader := {
  shader_layout_cache : gmap Signature LayoutObject;
  shader_cache : gmap ShaderDescriptor Handle;
}.

(** Modelled from the spec: [Pipeline] of Pipeline.h, two caches: from
    (descriptor-set layout, push-constant byte size) to a pipeline layout
    ([pipeline.layout.cache]) and from (pipeline layout, shader module,
    local work group size) to a pipeline ([pipeline.cache]). *)
Record Pipeline := {
  pipeline_layout_cache : gmap (Handle * nat) Handle;
  pipeline_cache : gmap (Handle * Handle * WorkGroup) Handle;
}.

(** Modelled from the spec: [Descriptor] of Descriptor.h, a pool with the
    descriptor sets allocated since its last reset. *)
Record Descriptor := { descriptor_pool : list Handle }.

(** Modelled from the spec: [Resource] of Resource.h, the memory it owns. *)
Record ResourcePool := { resource_pool : list Handle }.

(** [class Context]: the members in their declaration order. *)
Record Context := {
  adapter_ : Adapter;
  device_ : Handle;
  queue_ : Handle;
  command_ : Command;
  shader_ : Shader;
  pipeline_ : Pipeline;
  descriptor_ : Descriptor;
  resource_ : ResourcePool;
}.

(** "A GPU is simply a (physical device, logical device, device queue)
    trio." *)
Record GPU := { gpu_adapter : Adapter; gpu_device : Handle; gpu_queue : Handle }.

(** Modelled from the spec: [Command::Buffer] of Command.h, a native
    command buffer that accumulates recorded operations. *)
Record CommandBuffer := { cb_handle : Handle }.

(** Modelled from the spec: [Descriptor::Set] of Descriptor.h, a native
    descriptor set. *)
Record DescriptorSet := { set_handle : Handle }.

(** A reference to a Context: the process-wide one behind [api::context()]
    or any other Context object. *)
Inductive Ref := TheContext | Other (address : nat).

(** *** The world the code runs in *)

Record World := {
  next_handle : Handle;
  objects : gmap Handle NativeObject;
  the_context : option Context;
  heap : gmap nat Context;
  log : list Event;
}.

Inductive Build := Debug | Release.

Inductive Error := AssertionFailed | NullContext.

Inductive result (A : Type) :=
  | Ok (a : A)
  | Fatal (e : Error).
Arguments Ok {A} a.
Arguments Fatal {A} e.

(** Code that reads and writes the world and may fail. *)
Definition M (A : Type) : Type := World → result (A * World).

#[global] Instance M_ret : MRet M := λ A a w, Ok (a, w).
#[global] Instance M_bind : MBind M := λ A B f m w,
  match m w with
  | Ok (a, w') => f a w'
  | Fatal e => Fatal e
  end.

Definition fail {A} (e : Error) : M A := λ _, Fatal e.

Definition emit (e : Event) : M unit := λ w,
  Ok (tt, {| next_handle := next_handle w; objects := objects w;
             the_context := the_context w; heap := heap w;
             log := log w ++ [e] |}).

(** A [vkCreate*] or [vkAllocate*] call: a fresh handle, registered with
    its creation parameters. *)
Definition create (o : NativeObject) : M Handle := λ w,
  let h := next_handle w in
  Ok (h, {| next_handle := S h; objects := <[h := o]> (objects w);
            the_context := the_context w; heap := heap w; log := log w |}).

(** Reading and writing a Context through a reference.  A reference to no
    object is a null pointer. *)
Definition load (r : Ref) : M Context := λ w,
  match (match r with TheContext => the_context w | Other a => heap w !! a end) with
  | Some ctx => Ok (ctx, w)
  | None => Fatal NullContext
  end.

Definition store (r : Ref) (ctx : Context) : M unit := λ w,
  Ok (tt,
      match r with
      | TheContext =>
          {| next_handle := next_handle w; objects := objects w;
             the_context := Some ctx; heap := heap w; log := log w |}
      | Other a =>
          {| next_handle := next_handle w; objects := objects w;
             the_context := the_context w; heap := <[a := ctx]> (heap w);
             log := log w |}
      end).

Definition set_shader (s : Shader) (ctx : Context) : Context :=
  {| adapter_ := adapter_ ctx; device_ := device_ ctx; queue_ := queue_ ctx;
     command_ := command_ ctx; shader_ := s; pipeline_ := pipeline_ ctx;
     descriptor_ := descriptor_ ctx; resource_ := resource_ ctx |}.

Definition set_pipeline (p : Pipeline) (ctx : Context) : Context :=
  {| adapter_ := adapter_ ctx; device_ := device_ ctx; queue_ := queue_ ctx;
     command_ := command_ ctx; shader_ := shader_ ctx; pipeline_ := p;
     descriptor_ := descriptor_ ctx; resource_ := resource_ ctx |}.

Definition set_descriptor (d : Descriptor) (ctx : Context) : Context :=
  {| adapter_ := adapter_ ctx; device_ := device_ ctx; queue_ := queue_ ctx;
     command_ := command_ ctx; shader_ := shader_ ctx;
     pipeline_ := pipeline_ ctx; descriptor_ := d;
     resource_ := resource_ ctx |}.

(** *** Caches *)

(** Modelled from the spec: the cache class of Cache.h, which is not among
    the sources.  A cache sits in a Context, maps keys to values that wrap
    a native handle, and knows what object its factory creates for a key. *)
Record Cache (K V : Type) `{Countable K} := {
  cache_get : Context → gmap K V;
  cache_set : gmap K V → Context → Context;
  describe : K → NativeObject;
  wrap : K → Handle → V;
  handle_of : V → Handle;
}.
Arguments cache_get {K V _ _} _ _.
Arguments cache_set {K V _ _} _ _ _.
Arguments describe {K V _ _} _ _.
Arguments wrap {K V _ _} _ _ _.
Arguments handle_of {K V _ _} _ _.

(** Modelled from the spec: [retrieve] of Cache.h, a get-or-create lookup.
    A lookup that misses creates the object and inserts it; entries are
    never evicted. *)
Definition retrieve {K V} `{Countable K} (c : Cache K V) (context : Ref)
    (descriptor : K) : M V :=
  ctx ← load context;
  match cache_get c ctx !! descriptor with
  | Some v =>
      emit (EvRetrieve (describe c descriptor) (handle_of c v) false);;
      mret v
  | None =>
      h ← create (describe c descriptor);
      let v := wrap c descriptor h in
      store context (cache_set c (<[descriptor := v]> (cache_get c ctx)) ctx);;
      emit (EvRetrieve (describe c descriptor) h true);;
      mret v
  end.

(** Modelled from the spec: [shader.layout.cache] of Shader.h. *)
Definition shader_layout : Cache Signature LayoutObject := {|
  cache_get ctx := shader_layout_cache (shader_ ctx);
  cache_set c ctx :=
    set_shader {| shader_layout_cache := c;
                  shader_cache := shader_cache (shader_ ctx) |} ctx;
  describe sig := ObjDescriptorSetLayout sig;
  wrap sig h := {| handle := h; signature := sig |};
  handle_of := handle;
|}.

(** Modelled from the spec: [shader.cache] of Shader.h. *)
Definition shader_module : Cache ShaderDescriptor Handle := {|
  cache_get ctx := shader_cache (shader_ ctx);
  cache_set c ctx :=
    set_shader {| shader_layout_cache := shader_layout_cache (shader_ ctx);
                  shader_cache := c |} ctx;
  describe sd := ObjShaderModule sd;
  wrap _ h := h;
  handle_of h := h;
|}.

(** Modelled from the spec: [pipeline.layout.cache] of Pipeline.h. *)
Definition pipeline_layout : Cache (Handle * nat) Handle := {|
  cache_get ctx := pipeline_layout_cache (pipeline_ ctx);
  cache_set c ctx :=
    set_pipeline {| pipeline_layout_cache := c;
                    pipeline_cache := pipeline_cache (pipeline_ ctx) |} ctx;
  describe k := ObjPipelineLayout k.1 k.2;
  wrap _ h := h;
  handle_of h := h;
|}.

(** Modelled from the spec: [pipeline.cache] of Pipeline.h. *)
Definition pipeline : Cache (Handle * Handle * WorkGroup) Handle := {|
  cache_get ctx := pipeline_cache (pipeline_ ctx);
  cache_set c ctx :=
    set_pipeline {| pipeline_layout_cache :=
                      pipeline_layout_cache (pipeline_ ctx);
                    pipeline_cache := c |} ctx;
  describe k := ObjPipeline k.1.1 k.1.2 k.2;
  wrap _ h := h;
  handle_of h := h;
|}.

(** *** Descriptor pool, descriptor sets and command buffers *)

(** Modelled from the spec: [descriptor.pool.allocate] of Descriptor.h.
    The pool allocates a descriptor set from a layout on demand. *)
Definition pool_allocate (context : Ref) (shader_layout : LayoutObject)
  : M DescriptorSet :=
  h ← create (ObjDescriptorSet (handle shader_layout));
  ctx ← load context;
  store context
    (set_descriptor
       {| descriptor_pool := h :: descriptor_pool (descriptor_ ctx) |} ctx);;
  emit (EvAllocate (handle shader_layout) h);;
  mret {| set_handle := h |}.

(** Modelled from the spec: [Descriptor::Set::bind] of Descriptor.h, the
    "bind to slot N" operation of a bindable resource. *)
Definition Set_bind (descriptor_set : DescriptorSet) (binding : nat)
    (r : Resource) : M unit :=
  emit (EvUpdate (set_handle descriptor_set) binding r).

(** Modelled from the spec: [Command::Buffer::bind] of Command.h for a
    pipeline; it records a bind-pipeline operation. *)
Definition Buffer_bind_pipeline (cb : CommandBuffer) (p : Handle) : M unit :=
  emit (EvBindPipeline (cb_handle cb) p).

(** Modelled from the spec: [Command::Buffer::bind] of Command.h for a
    descriptor set; it records a bind-descriptor-set operation. *)
Definition Buffer_bind_set (cb : CommandBuffer) (s : DescriptorSet) : M unit :=
  emit (EvBindDescriptorSet (cb_handle cb) (set_handle s)).

(** Modelled from the spec: [Command::Buffer::dispatch] of Command.h; it
    records a dispatch operation. *)
Definition Buffer_dispatch (cb : CommandBuffer) (global : WorkGroup) : M unit :=
  emit (EvDispatch (cb_handle cb) global).

(** The Vulkan call: [size] bytes read from [pValues] are recorded as push
    constants. *)
Definition vkCmdPushConstants (commandBuffer layout : Handle) (stageFlags : Z)
    (offset size : nat) (pValues : list Byte.byte) : M unit :=
  emit (EvPushConstants commandBuffer layout stageFlags offset size
          (take size pValues)).

(** *** Assertions *)

(** Modelled from the spec: the macro comes from c10, outside the sources.
    It is a fatal assertion in debug builds and is compiled out in release
    builds. *)
Definition TORCH_INTERNAL_ASSERT_DEBUG_ONLY (b : Build) (cond : bool) : M unit :=
  match b with
  | Debug => if cond then mret tt else fail AssertionFailed
  | Release => mret tt
  end.

(** *** The process-wide context *)

(** Modelled from the spec: the constructor [Context(const Adapter&)] of
    Context.cpp.  It creates the logical device and its queue and starts
    every subsystem empty. *)
Definition Context_new : M Context :=
  physical ← create ObjPhysicalDevice;
  device ← create (ObjDevice physical);
  queue ← create (ObjQueue device);
  mret {| adapter_ := {| physical_device := physical |};
          device_ := device; queue_ := queue;
          command_ := {| command_pool := [] |};
          shader_ := {| shader_layout_cache := ∅; shader_cache := ∅ |};
          pipeline_ := {| pipeline_layout_cache := ∅; pipeline_cache := ∅ |};
          descriptor_ := {| descriptor_pool := [] |};
          resource_ := {| resource_pool := [] |} |}.

(** Modelled from the spec: [api::context()] of Context.cpp.  It lazily
    constructs the singleton Context on first access and returns it. *)
Definition context : M Ref := λ w,
  match the_context w with
  | Some _ => Ok (TheContext, w)
  | None => (ctx ← Context_new; store TheContext ctx;; mret TheContext) w
  end.

(** *** Context.h: accessors *)

Definition device (b : Build) (this : Ref) : M Handle :=
  ctx ← load this;
  TORCH_INTERNAL_ASSERT_DEBUG_ONLY b
    (bool_decide (device_ ctx ≠ VK_NULL_HANDLE));;
  mret (device_ ctx).

Definition queue (b : Build) (this : Ref) : M Handle :=
  ctx ← load this;
  TORCH_INTERNAL_ASSERT_DEBUG_ONLY b
    (bool_decide (queue_ ctx ≠ VK_NULL_HANDLE));;
  mret (queue_ ctx).

Definition gpu (b : Build) (this : Ref) : M GPU :=
  ctx ← load this;
  d ← device b this;
  q ← queue b this;
  mret {| gpu_adapter := adapter_ ctx; gpu_device := d; gpu_queue := q |}.

(** *** Context.h: dispatch *)

(** [std::index_sequence_for<Arguments...>] *)
Definition index_sequence_for {A} (arguments : list A) : list nat :=
  seq 0 (length arguments).

(** [detail::bind]: the pack expansion inside the braced initializer is
    evaluated left to right, one [descriptor_set.bind] per index/argument
    pair. *)
Fixpoint bind (descriptor_set : DescriptorSet) (Indices : list nat)
    (arguments : list Resource) : M unit :=
  match Indices, arguments with
  | i :: Indices', a :: arguments' =>
      Set_bind descriptor_set i a;;
      bind descriptor_set Indices' arguments'
  | _, _ => mret tt
  end.

(** [sizeof(params)]: the parameter block is its object representation. *)
Definition sizeof (params : list Byte.byte) : nat := length params.

Definition dispatch (b : Build) (this : Ref)
    (command_buffer : CommandBuffer)
    (shader_layout_signature : Signature)
    (shader_descriptor : ShaderDescriptor)
    (global_work_group local_work_group_size : WorkGroup)
    (params : list Byte.byte)
    (arguments : list Resource) : M unit :=
  context ← context;
  _ ← gpu b context;
  shader_layout ← retrieve shader_layout context shader_layout_signature;
  pipe_layout ←
    retrieve pipeline_layout context (handle shader_layout, sizeof params);
  vkCmdPushConstants (cb_handle command_buffer) pipe_layout
    VK_SHADER_STAGE_COMPUTE_BIT 0 (sizeof params) params;;
  module ← retrieve shader_module context shader_descriptor;
  pipe ← retrieve pipeline context (pipe_layout, module, local_work_group_size);
  Buffer_bind_pipeline command_buffer pipe;;
  descriptor_set ← pool_allocate context shader_layout;
  bind descriptor_set (index_sequence_for arguments) arguments;;
  Buffer_bind_set command_buffer descriptor_set;;
  Buffer_dispatch command_buffer global_work_group.

(** *** The other operations of the runtime *)

(** Modelled from the spec: [Context::flush] of Context.cpp.  It blocks the
    caller until the queue has drained. *)
Definition flush (b : Build) (this : Ref) : M unit :=
  q ← queue b this;
  emit (EvWaitIdle q).

(** Modelled from the spec: the bulk reset of the descriptor pool, of
    Descriptor.h.  It reclaims every descriptor set. *)
Definition pool_purge (this : Ref) : M unit :=
  ctx ← load this;
  store this (set_descriptor {| descriptor_pool := [] |} ctx);;
  emit EvResetPool.

(** Modelled from the spec: the submission of a recorded command buffer,
    of Command.h. *)
Definition submit (cb : CommandBuffer) : M unit :=
  emit (EvSubmit (cb_handle cb)).

(** Modelled from the spec: a Context object constructed besides the
    process-wide one. *)
Definition construct (address : nat) : M unit :=
  ctx ← Context_new;
  store (Other address) ctx.

(** The operations a client can invoke, and sequences of them. *)
Inductive Call :=
  | CallDispatch (this : Ref) (command_buffer : CommandBuffer)
      (shader_layout_signature : Signature)
      (shader_descriptor : ShaderDescriptor)
      (global_work_group local_work_group_size : WorkGroup)
      (params : list Byte.byte) (arguments : list Resource)
  | CallFlush (this : Ref)
  | CallPurge (this : Ref)
  | CallSubmit (cb : CommandBuffer)
  | CallConstruct (address : nat).

Definition call (b : Build) (c : Call) : M unit :=
  match c with
  | CallDispatch this cb sig sd g l params args =>
      dispatch b this cb sig sd g l params args
  | CallFlush this => flush b this
  | CallPurge this => pool_purge this
  | CallSubmit cb => submit cb
  | CallConstruct a => construct a
  end.

Fixpoint run (b : Build) (cs : list Call) : M unit :=
  match cs with
  | [] => mret tt
  | c :: cs' => call b c;; run b cs'
  end.

(** The world at process start: no object, no Context. *)
Definition world0 : World :=
  {| next_handle := 1; objects := ∅; the_context := None; heap := ∅;
     log := [] |}.

(** The signature and the descriptor of the hardsigmoid kernel: an image at
    binding 0 and a uniform block at binding 1. *)
Definition hardsigmoid_signature : Signature :=
  [ {| slot_kind := KindImage; slot_stage := VK_SHADER_STAGE_COMPUTE_BIT;
       slot_count := 1 |};
    {| slot_kind := KindUniform; slot_stage := VK_SHADER_STAGE_COMPUTE_BIT;
       slot_count := 1 |} ].

Definition hardsigmoid_descriptor : ShaderDescriptor :=
  {| kernel := "hardsigmoid_"; constants := [] |}.

(** *** Vocabulary of the specification *)

(** [m] run in [w] returns a result and a world that satisfy [Q]. *)
Definition wp {A} (m : M A) (w : World) (Q : A → World → Prop) : Prop :=
  ∃ a w', m w = Ok (a, w') ∧ Q a w'.

(** The events logged between [w] and a later world [w']. *)
Definition new_events (w w' : World) : list Event :=
  drop (length (log w)) (log w').

(** The debug assertions of [device()] and [queue()] hold, or are compiled
    out.  A Context that [api::context()] has yet to construct gets its
    device and queue from the constructor. *)
Definition initialized (ctx : Context) : bool :=
  bool_decide (device_ ctx ≠ VK_NULL_HANDLE) &&
  bool_decide (queue_ ctx ≠ VK_NULL_HANDLE).

Definition gpu_ready (b : Build) (w : World) : bool :=
  match b with
  | Release => true
  | Debug =>
      match the_context w with
      | Some ctx => initialized ctx
      | None => true
      end
  end.

(** The events of one dispatch, given the objects it resolved. *)
Definition bind_events (set : Handle) (arguments : list Resource)
  : list Event :=
  imap (λ i a, EvUpdate set i a) arguments.

Definition dispatch_events (cb : Handle) (sig : Signature)
    (sd : ShaderDescriptor) (global local : WorkGroup)
    (params : list Byte.byte) (arguments : list Resource)
    (set_layout pipe_layout module pipe set : Handle)
    (c1 c2 c3 c4 : bool) : list Event :=
  [ EvRetrieve (ObjDescriptorSetLayout sig) set_layout c1;
    EvRetrieve (ObjPipelineLayout set_layout (length params)) pipe_layout c2;
    EvPushConstants cb pipe_layout VK_SHADER_STAGE_COMPUTE_BIT 0
      (length params) params;
    EvRetrieve (ObjShaderModule sd) module c3;
    EvRetrieve (ObjPipeline pipe_layout module local) pipe c4;
    EvBindPipeline cb pipe;
    EvAllocate set_layout set ]
  ++ bind_events set arguments
  ++ [ EvBindDescriptorSet cb set; EvDispatch cb global ].

Definition is_submission (e : Event) : bool :=
  match e with
  | EvSubmit _ | EvWaitIdle _ => true
  | _ => false
  end.

Definition is_creation (e : Event) : bool :=
  match e with
  | EvRetrieve _ _ created => created
  | _ => false
  end.

(** Projections of a sequence of events. *)
Definition resolved (evs : list Event) : list (NativeObject * Handle) :=
  omap (λ e, match e with EvRetrieve k h _ => Some (k, h) | _ => None end) evs.

Definition bound_pipelines (evs : list Event) : list (Handle * Handle) :=
  omap (λ e, match e with EvBindPipeline cb p => Some (cb, p) | _ => None end)
       evs.

Definition allocations (evs : list Event) : list (Handle * Handle) :=
  omap (λ e, match e with EvAllocate l s => Some (l, s) | _ => None end) evs.

Definition updates (evs : list Event) : list (Handle * nat * Resource) :=
  omap (λ e, match e with EvUpdate s i r => Some (s, i, r) | _ => None end)
       evs.

Definition pushes (evs : list Event)
  : list (Handle * Handle * Z * nat * nat * list Byte.byte) :=
  omap (λ e, match e with
             | EvPushConstants cb pl st off sz data =>
                 Some (cb, pl, st, off, sz, data)
             | _ => None
             end) evs.

(** The laws a cache accessor obeys. *)
Record CacheLaws {K V} `{Countable K} (c : Cache K V) : Prop := {
  get_set : ∀ m ctx, cache_get c (cache_set c m ctx) = m;
  handle_wrap : ∀ k h, handle_of c (wrap c k h) = h;
  describe_inj : ∀ k k', describe c k = describe c k' → k = k';
  describe_cached : ∀ k, cached (describe c k) = true;
  set_device : ∀ m ctx, device_ (cache_set c m ctx) = device_ ctx;
  set_queue : ∀ m ctx, queue_ (cache_set c m ctx) = queue_ ctx;
  set_pool : ∀ m ctx, descriptor_ (cache_set c m ctx) = descriptor_ ctx;
  get_set_descriptor : ∀ d ctx,
    cache_get c (set_descriptor d ctx) = cache_get c ctx;
}.

(** Two different caches: writing one leaves the other alone, and they
    hold objects of different kinds. *)
Record Independent {K V K' V'} `{Countable K} `{Countable K'}
    (c : Cache K V) (c' : Cache K' V') : Prop := {
  get_set_other : ∀ m ctx, cache_get c' (cache_set c m ctx) = cache_get c' ctx;
  describe_other : ∀ k k', describe c k ≠ describe c' k';
}.

(** The outcome of a lookup: a hit on [v], or a miss that creates [v]. *)
Definition hit_or_miss {K V} `{Countable K} (c : Cache K V) (k : K) (v : V)
    (created : bool) (ctx : Context) (w : World) : Prop :=
  if created
  then cache_get c ctx !! k = None ∧ v = wrap c k (next_handle w)
  else cache_get c ctx !! k = Some v.

(** The Context and the world after [retrieve c TheContext k] returned
    [v]. *)
Definition ctx_after {K V} `{Countable K} (c : Cache K V) (k : K) (v : V)
    (created : bool) (ctx : Context) : Context :=
  if created then cache_set c (<[k := v]> (cache_get c ctx)) ctx else ctx.

Definition retrieved {K V} `{Countable K} (c : Cache K V) (k : K) (v : V)
    (created : bool) (ctx : Context) (w : World) : World :=
  {| next_handle := if created then S (next_handle w) else next_handle w;
     objects := if created then <[next_handle w := describe c k]> (objects w)
                else objects w;
     the_context := Some (ctx_after c k v created ctx);
     heap := heap w;
     log := log w ++ [EvRetrieve (describe c k) (handle_of c v) created] |}.

(** The world after some events were logged. *)
Definition logged (evs : list Event) (w : World) : World :=
  {| next_handle := next_handle w; objects := objects w;
     the_context := the_context w; heap := heap w; log := log w ++ evs |}.

(** The world after the pool of [ctx] allocated a set. *)
Definition allocated (set_layout : Handle) (ctx : Context) (w : World)
  : World :=
  {| next_handle := S (next_handle w);
     objects := <[next_handle w := ObjDescriptorSet set_layout]> (objects w);
     the_context :=
       Some (set_descriptor
               {| descriptor_pool :=
                    next_handle w :: descriptor_pool (descriptor_ ctx) |} ctx);
     heap := heap w;
     log := log w ++ [EvAllocate set_layout (next_handle w)] |}.

(** The Context that [Context_new] builds in [w], and the world after. *)
Definition new_context (w : World) : Context :=
  {| adapter_ := {| physical_device := next_handle w |};
     device_ := S (next_handle w);
     queue_ := S (S (next_handle w));
     command_ := {| command_pool := [] |};
     shader_ := {| shader_layout_cache := ∅; shader_cache := ∅ |};
     pipeline_ := {| pipeline_layout_cache := ∅; pipeline_cache := ∅ |};
     descriptor_ := {| descriptor_pool := [] |};
     resource_ := {| resource_pool := [] |} |}.

Definition new_objects (w : World) : gmap Handle NativeObject :=
  <[S (S (next_handle w)) := ObjQueue (S (next_handle w))]>
    (<[S (next_handle w) := ObjDevice (next_handle w)]>
       (<[next_handle w := ObjPhysicalDevice]> (objects w))).

(** The world after [api::context()]. *)
Definition started (w : World) : World :=
  match the_context w with
  | Some _ => w
  | None =>
      {| next_handle := S (S (S (next_handle w)));
         objects := new_objects w;
         the_context := Some (new_context w);
         heap := heap w; log := log w |}
  end.

(** A cache and the driver agree: every entry holds the object created
    for its key, and every such object is in the cache. *)
Definition agrees {K V} `{Countable K} (c : Cache K V) (ctx : Context)
    (objs : gmap Handle NativeObject) : Prop :=
  (∀ k v, cache_get c ctx !! k = Some v →
          v = wrap c k (handle_of c v) ∧
          objs !! handle_of c v = Some (describe c k)) ∧
  (∀ h k, objs !! h = Some (describe c k) →
          cache_get c ctx !! k = Some (wrap c k h)).

(** The invariant of the worlds the runtime can reach. *)
Record Inv (w : World) : Prop := {
  inv_fresh : ∀ h o, objects w !! h = Some o → h < next_handle w;
  inv_none : the_context w = None →
             ∀ h o, objects w !! h = Some o → cached o = false;
  inv_layout : ∀ ctx, the_context w = Some ctx →
               agrees shader_layout ctx (objects w);
  inv_module : ∀ ctx, the_context w = Some ctx →
               agrees shader_module ctx (objects w);
  inv_pipeline_layout : ∀ ctx, the_context w = Some ctx →
               agrees pipeline_layout ctx (objects w);
  inv_pipeline : ∀ ctx, the_context w = Some ctx →
               agrees pipeline ctx (objects w);
}.

(** The caches of [ctx'] hold at least the entries of [ctx]. *)
Definition caches_le (ctx ctx' : Context) : Prop :=
  shader_layout_cache (shader_ ctx) ⊆ shader_layout_cache (shader_ ctx') ∧
  shader_cache (shader_ ctx) ⊆ shader_cache (shader_ ctx') ∧
  pipeline_layout_cache (pipeline_ ctx)
    ⊆ pipeline_layout_cache (pipeline_ ctx') ∧
  pipeline_cache (pipeline_ ctx) ⊆ pipeline_cache (pipeline_ ctx').

(** What one successful dispatch from [w] to [w'] did, given the objects
    it resolved and whether it had to create them. *)
Record dispatch_post (w w' : World) (cb : Handle) (sig : Signature)
    (sd : ShaderDescriptor) (g l : WorkGroup) (params : list Byte.byte)
    (args : list Resource) (slo : LayoutObject) (pl sm pp ds : Handle)
    (c1 c2 c3 c4 : bool) : Prop := {
  post_log :
    log w' = log w ++
      dispatch_events cb sig sd g l params args (handle slo) pl sm pp ds
        c1 c2 c3 c4;
  post_heap : heap w' = heap w;
  post_ready : ∀ b, gpu_ready b w = true → gpu_ready b w' = true;
  post_set : ds = next_handle w' - 1 ∧ next_handle w < next_handle w' ∧
             next_handle w ≤ ds ∧
             objects w' !! ds = Some (ObjDescriptorSet (handle slo));
  post_context : ∃ ctx',
    the_context w' = Some ctx' ∧
    shader_layout_cache (shader_ ctx') !! sig = Some slo ∧
    pipeline_layout_cache (pipeline_ ctx') !! (handle slo, length params)
      = Some pl ∧
    shader_cache (shader_ ctx') !! sd = Some sm ∧
    pipeline_cache (pipeline_ ctx') !! (pl, sm, l) = Some pp ∧
    ds ∈ descriptor_pool (descriptor_ ctx') ∧
    (∀ ctx, the_context w = Some ctx →
       caches_le ctx ctx' ∧ device_ ctx' = device_ ctx ∧
       queue_ ctx' = queue_ ctx ∧
       descriptor_pool (descriptor_ ctx')
         = ds :: descriptor_pool (descriptor_ ctx));
  post_hit : ∀ ctx, the_context w = Some ctx →
    (∀ v, shader_layout_cache (shader_ ctx) !! sig = Some v →
          c1 = false ∧ slo = v) ∧
    (∀ v, pipeline_layout_cache (pipeline_ ctx) !! (handle slo, length params)
            = Some v → c2 = false ∧ pl = v) ∧
    (∀ v, shader_cache (shader_ ctx) !! sd = Some v → c3 = false ∧ sm = v) ∧
    (∀ v, pipeline_cache (pipeline_ ctx) !! (pl, sm, l) = Some v →
          c4 = false ∧ pp = v);
}.

(** The successor relation of the worlds: the process-wide Context stays,
    with at least the cache entries it had. *)
Definition grows (w w' : World) : Prop :=
  ∀ ctx, the_context w = Some ctx →
         ∃ ctx', the_context w' = Some ctx' ∧ caches_le ctx ctx'.

(** The dispatch commands among some events, and the one a call records. *)
Definition dispatched (evs : list Event) : list (Handle * WorkGroup) :=
  omap (λ e, match e with EvDispatch cb g => Some (cb, g) | _ => None end) evs.

Definition is_dispatch (c : Call) : bool :=
  match c with
  | CallDispatch _ _ _ _ _ _ _ _ => true
  | _ => false
  end.

Definition recorded (c : Call) : list (Handle * WorkGroup) :=
  match c with
  | CallDispatch _ cb _ _ g _ _ _ => [(cb_handle cb, g)]
  | _ => []
  end.

(** A later world of the runtime: the invariant holds and every native
    object is still there. *)
Definition extends (w w' : World) : Prop :=
  Inv w' ∧ objects w ⊆ objects w'.

(** A world with one Context object besides the process-wide one, which is
    yet to be constructed. *)
Definition world_with_other : World :=
  {| next_handle := 4; objects := new_objects world0; the_context := None;
     heap := {[ 7 := new_context world0 ]}; log := [] |}.

(** A Context whose device and queue are unset, with empty caches. *)
Definition unset_context : Context :=
  {| adapter_ := {| physical_device := VK_NULL_HANDLE |};
     device_ := VK_NULL_HANDLE; queue_ := VK_NULL_HANDLE;
     command_ := {| command_pool := [] |};
     shader_ := {| shader_layout_cache := ∅; shader_cache := ∅ |};
     pipeline_ := {| pipeline_layout_cache := ∅; pipeline_cache := ∅ |};
     descriptor_ := {| descriptor_pool := [] |};
     resource_ := {| resource_pool := [] |} |}.


End Vulkan.

(** ** Lifetime of the members of a Context

    Context.h fixes the order of the data members; the C++ object model
    fixes the rest: members are initialised in declaration order, an
    exception during construction destroys the members initialised so far,
    and the destructor destroys all of them after its body has run. *)

Module Lifetime.

Inductive Member :=
  | adapter_ | device_ | queue_ | command_
  | shader_ | pipeline_ | descriptor_ | resource_.

#[global] Instance Member_eq_dec : EqDecision Member.
Proof. solve_decision. Defined.

(** "Construction and destruction order matters.  Do not move members
    around." *)
Definition members : list Member :=
  [adapter_; device_; queue_; command_; shader_; pipeline_; descriptor_;
   resource_].

Inductive Step :=
  | Init (m : Member)
  | Release (m : Member)
  | Body.

(** Destroying the members initialised so far, the most recent first.
    [done] holds them in that order. *)
Definition unwind (done : list Member) : list Step := Release <$> done.

(** The member initialisers, run in declaration order; [throws m] tells
    whether the initialiser of [m] raises. *)
Fixpoint initialise (throws : Member → bool) (todo done : list Member)
  : list Step * option (list Member) :=
  match todo with
  | [] => ([], Some done)
  | m :: todo' =>
      if throws m then (unwind done, None)
      else
        let r := initialise throws todo' (m :: done) in
        (Init m :: r.1, r.2)
  end.

(** [Context(const Adapter&)]: the initialisers, then the body.  The body
    is defined in Context.cpp; it is one opaque step here. *)
Definition constructor (throws : Member → bool) (body_throws : bool)
  : list Step * option (list Member) :=
  match initialise throws members [] with
  | (tr, Some done) =>
      if body_throws then (tr ++ Body :: unwind done, None)
      else (tr ++ [Body], Some done)
  | (tr, None) => (tr, None)
  end.

(** [~Context()]: the body, then the members.  The body is defined in
    Context.cpp; it is one opaque step here. *)
Definition destructor (done : list Member) : list Step :=
  Body :: unwind done.

(** A Context from its construction to the end of its teardown. *)
Definition lifecycle (throws : Member → bool) (body_throws : bool)
  : list Step :=
  match constructor throws body_throws with
  | (tr, Some done) => tr ++ destructor done
  | (tr, None) => tr
  end.

Definition initialised (tr : list Step) : list Member :=
  omap (λ s, match s with Init m => Some m | _ => None end) tr.

Definition released (tr : list Step) : list Member :=
  omap (λ s, match s with Release m => Some m | _ => None end) tr.

(** [a] comes before [b] in [l]. *)
Definition before {A} (a b : A) (l : list A) : Prop :=
  ∃ l1 l2 l3, l = l1 ++ a :: l2 ++ b :: l3.

End Lifetime.

(** * Properties of the kernel *)

Section HardsigmoidProperties.
Import Hardsigmoid.
Context {F : Type} `{Precision F}.
Implicit Types (img : image3D F) (size : ivec4) (gid : uvec3) (p q : ivec3).

Lemma main_outside img size gid :
  in_extent (ivec3_of_uvec3 gid) size = false → main img size gid = Some img.
Proof. unfold in_extent, main. by intros ->. Qed.

Lemma main_inside img size gid v :
  in_extent (ivec3_of_uvec3 gid) size = true →
  img !! ivec3_of_uvec3 gid = Some v →
  main img size gid = Some (<[ivec3_of_uvec3 gid := vmap hardsigmoid v]> img).
Proof.
  unfold in_extent, main, imageLoad, imageStore. intros -> Hv.
  by rewrite Hv.
Qed.

Lemma main_inv img size gid img' :
  main img size gid = Some img' →
  (in_extent (ivec3_of_uvec3 gid) size = false ∧ img' = img) ∨
  (∃ v, in_extent (ivec3_of_uvec3 gid) size = true ∧
        img !! ivec3_of_uvec3 gid = Some v ∧
        img' = <[ivec3_of_uvec3 gid := vmap hardsigmoid v]> img).
Proof.
  intros Hm. destruct (in_extent (ivec3_of_uvec3 gid) size) eqn:He.
  - right. destruct (img !! ivec3_of_uvec3 gid) as [v|] eqn:Hv.
    + exists v. rewrite (main_inside _ _ _ v) in Hm by done. naive_solver.
    + unfold main, in_extent, imageLoad in *. rewrite He in Hm.
      by rewrite Hv in Hm.
  - left. rewrite main_outside in Hm by done. naive_solver.
Qed.

Lemma main_frame img size gid img' q :
  main img size gid = Some img' →
  (ivec3_of_uvec3 gid = q → in_extent q size = false) →
  img' !! q = img !! q.
Proof.
  intros [[_ ->]|(v & He & _ & ->)]%main_inv Hq; [done|].
  apply lookup_insert_ne. intros Heq. specialize (Hq Heq). congruence.
Qed.

Lemma main_dom img size gid img' q :
  main img size gid = Some img' → is_Some (img' !! q) ↔ is_Some (img !! q).
Proof.
  intros [[_ ->]|(v & _ & Hv & ->)]%main_inv; [done|].
  destruct (decide (ivec3_of_uvec3 gid = q)) as [<-|].
  - rewrite lookup_insert_eq, Hv. split; eauto.
  - by rewrite lookup_insert_ne.
Qed.

Lemma invoke_all_frame ids : ∀ img img' size q,
  invoke_all ids img size = Some img' →
  (∀ gid, gid ∈ ids → ivec3_of_uvec3 gid = q → in_extent q size = false) →
  img' !! q = img !! q.
Proof.
  induction ids as [|gid ids IH]; intros img img' size q Hrun Hq.
  - by injection Hrun as <-.
  - cbn in Hrun. destruct (main img size gid) as [img1|] eqn:Hm; [|done].
    cbn in Hrun. rewrite (IH _ _ _ _ Hrun).
    + eapply main_frame; [done|]. apply Hq. by left.
    + intros g Hg. apply Hq. by right.
Qed.

Lemma invoke_all_dom ids : ∀ img img' size q,
  invoke_all ids img size = Some img' →
  is_Some (img' !! q) ↔ is_Some (img !! q).
Proof.
  induction ids as [|gid ids IH]; intros img img' size q Hrun.
  - by injection Hrun as <-.
  - cbn in Hrun. destruct (main img size gid) as [img1|] eqn:Hm; [|done].
    cbn in Hrun. rewrite (IH _ _ _ _ Hrun). by eapply main_dom.
Qed.

Lemma invoke_all_total ids : ∀ img size,
  (∀ gid, gid ∈ ids → in_extent (ivec3_of_uvec3 gid) size = true →
          is_Some (img !! ivec3_of_uvec3 gid)) →
  is_Some (invoke_all ids img size).
Proof.
  induction ids as [|gid ids IH]; intros img size Hin; [by eexists|].
  cbn. destruct (in_extent (ivec3_of_uvec3 gid) size) eqn:He.
  - destruct (Hin gid) as [v Hv]; [by left|done|].
    rewrite (main_inside _ _ _ v) by done. cbn. apply IH.
    intros g Hg Heg. destruct (decide (ivec3_of_uvec3 gid = ivec3_of_uvec3 g)) as [->|].
    + rewrite lookup_insert_eq. by eexists.
    + rewrite lookup_insert_ne by done. apply Hin; [by right|done].
  - rewrite main_outside by done. cbn. apply IH.
    intros g Hg. apply Hin. by right.
Qed.


End HardsigmoidProperties.

Section Grid.
Import Hardsigmoid.


Lemma elem_of_texel_coords w h d p :
  p ∈ texel_coords w h d ↔
  (0 ≤ ix p < w) ∧ (0 ≤ iy p < h) ∧ (0 ≤ iz p < d).
Proof.
  unfold texel_coords. repeat setoid_rewrite list_elem_of_bind.
  setoid_rewrite elem_of_seqZ. setoid_rewrite list_elem_of_singleton.
  split.
  - intros (x & (y & (z & -> & ?) & ?) & ?). simpl. lia.
  - destruct p as [x y z]. simpl. intros (? & ? & ?).
    exists x. split; [|lia]. exists y. split; [|lia]. exists z. split; [done|lia].
Qed.


Lemma int_of_uint_small u : 0 ≤ u < 2 ^ 31 → int_of_uint u = u.
Proof.
  intros Hu. unfold int_of_uint. rewrite Z.mod_small by lia.
  destruct (Z.ltb_spec u (2 ^ 31)); [done|lia].
Qed.



Lemma filled_lookup {F} w h d (v : vec4 F) p :
  filled w h d v !! p =
  if decide ((0 ≤ ix p < w) ∧ (0 ≤ iy p < h) ∧ (0 ≤ iz p < d))
  then Some v else None.
Proof.
  unfold filled. case_decide as Hp.
  - apply lookup_gset_to_gmap_Some. split; [|done].
    apply elem_of_list_to_set, elem_of_texel_coords. done.
  - apply lookup_gset_to_gmap_None.
    rewrite elem_of_list_to_set, elem_of_texel_coords. done.
Qed.

Lemma in_extent_spec p size :
  in_extent p size = true ↔
  ix p < jx size ∧ iy p < jy size ∧ iz p < jz size.
Proof.
  unfold in_extent, all, lessThan, xyz. simpl.
  rewrite !andb_true_iff, !Z.ltb_lt. tauto.
Qed.


End Grid.

Section HardsigmoidClaims.
Import Hardsigmoid.



(** C9.  An invocation whose position is not componentwise below the
    extents leaves the whole image unchanged; an invocation below the
    extents touches its own texel only; hence after any dispatch every texel
    at a position outside the extents holds its old value. *)
Theorem hardsigmoid_frame :
  (∀ (F : Type) (P : Precision F) (img : image3D F) size gid,
     in_extent (ivec3_of_uvec3 gid) size = false →
     main img size gid = Some img)
  ∧ (∀ (F : Type) (P : Precision F) (img img' : image3D F) size gid q,
       main img size gid = Some img' →
       q ≠ ivec3_of_uvec3 gid → img' !! q = img !! q)
  ∧ (∀ (F : Type) (P : Precision F) ids (img img' : image3D F) size q,
       invoke_all ids img size = Some img' →
       in_extent q size = false →
       img' !! q = img !! q).
Proof.
  split_and!.
  - intros. by apply main_outside.
  - intros F P img img' size gid q Hm Hq.
    eapply main_frame; [done|]. intros Heq. by destruct Hq.
  - intros F P ids img img' size q Hrun Hq.
    eapply invoke_all_frame; [done|]. done.
Qed.

Lemma hardsigmoid_frame_witness :
  main (filled 2 1 1 (splat 3%Q)) (IVec4 1 1 1 0) (UVec3 1 0 0)
  = Some (filled 2 1 1 (splat 3%Q)).
Proof.
  apply (proj1 hardsigmoid_frame). reflexivity.
Defined.

End HardsigmoidClaims.

(** * Properties of the member lifetimes *)

Section LifetimeProperties.
Import Lifetime.
Local Open Scope nat_scope.

Lemma released_unwind done : released (unwind done) = done.
Proof. unfold released, unwind. induction done; [done|]. cbn. by f_equal. Qed.

Lemma initialised_unwind done : initialised (unwind done) = [].
Proof. unfold initialised, unwind. by induction done. Qed.

Lemma initialise_cons throws m todo done :
  initialise throws (m :: todo) done =
  if throws m then (unwind done, None)
  else (Init m :: (initialise throws todo (m :: done)).1,
        (initialise throws todo (m :: done)).2).
Proof. done. Qed.

Lemma initialised_Init m tr : initialised (Init m :: tr) = m :: initialised tr.
Proof. done. Qed.

Lemma released_Init m tr : released (Init m :: tr) = released tr.
Proof. done. Qed.

Lemma initialise_spec throws : ∀ todo done,
  ∃ n, initialised (initialise throws todo done).1 = take n todo ∧
    match (initialise throws todo done).2 with
    | Some done' =>
        done' = reverse (take n todo) ++ done ∧
        released (initialise throws todo done).1 = []
    | None =>
        released (initialise throws todo done).1 = reverse (take n todo) ++ done
    end.
Proof.
  induction todo as [|m todo IH]; intros done.
  - by exists 0.
  - rewrite initialise_cons. destruct (throws m).
    + exists 0. cbn [fst snd take].
      by rewrite initialised_unwind, released_unwind.
    + destruct (IH (m :: done)) as (n & Hi & Hr). exists (S n).
      cbn [fst snd take].
      rewrite initialised_Init, released_Init, Hi, reverse_cons,
        <- (assoc_L (++)).
      split; [done|].
      by destruct (initialise throws todo (m :: done)).2.
Qed.

Lemma initialised_app tr1 tr2 :
  initialised (tr1 ++ tr2) = initialised tr1 ++ initialised tr2.
Proof. apply omap_app. Qed.

Lemma released_app tr1 tr2 :
  released (tr1 ++ tr2) = released tr1 ++ released tr2.
Proof. apply omap_app. Qed.

Lemma initialised_Body tr : initialised (Body :: tr) = initialised tr.
Proof. done. Qed.

Lemma released_Body tr : released (Body :: tr) = released tr.
Proof. done. Qed.

Lemma lifecycle_spec throws body_throws :
  ∃ n, initialised (lifecycle throws body_throws) = take n members ∧
       released (lifecycle throws body_throws) = reverse (take n members).
Proof.
  destruct (initialise_spec throws members []) as (n & Hi & Hr).
  exists n. unfold lifecycle, constructor.
  destruct (initialise throws members []) as [tr [done|]]; cbn [fst snd] in *.
  - destruct Hr as [-> Hr]. rewrite (right_id_L [] (++)).
    destruct body_throws; unfold destructor;
      rewrite ?initialised_app, ?released_app, ?initialised_Body,
        ?released_Body, ?initialised_app, ?released_app, ?initialised_Body,
        ?released_Body, ?initialised_unwind, ?released_unwind, Hi, Hr;
      change (initialised []) with (@nil Member);
      change (released []) with (@nil Member);
      by rewrite ?app_nil_r.
  - by rewrite (right_id_L [] (++)) in Hr.
Qed.

Lemma before_reverse {A} (a b : A) l :
  before a b l → before b a (reverse l).
Proof.
  intros (l1 & l2 & l3 & ->). exists (reverse l3), (reverse l2), (reverse l1).
  rewrite reverse_app, reverse_cons, reverse_app, reverse_cons.
  by rewrite <- !(assoc_L (++)).
Qed.

Lemma before_take {A} (a b : A) l n :
  NoDup l → before a b l → b ∈ take n l → before a b (take n l).
Proof.
  intros Hnd (l1 & l2 & l3 & ->) Hb.
  set (pre := l1 ++ a :: l2).
  assert (Heq : l1 ++ a :: l2 ++ b :: l3 = pre ++ b :: l3)
    by (unfold pre; by rewrite <- app_assoc).
  rewrite Heq in *. clear Heq.
  apply NoDup_app in Hnd as (_ & Hdisj & Hnd3).
  rewrite take_app in *.
  destruct (decide (n ≤ length pre)) as [Hle|Hgt].
  - replace (n - length pre) with 0 in Hb by lia. rewrite take_0 in Hb.
    rewrite (right_id_L [] (++)) in Hb.
    apply subseteq_take in Hb.
    destruct (Hdisj b Hb). by left.
  - rewrite take_ge by lia.
    destruct (n - length pre) as [|k] eqn:Hk; [lia|]. cbn.
    exists l1, l2, (take k l3). unfold pre.
    by rewrite <- app_assoc.
Qed.

Lemma NoDup_members : NoDup members.
Proof. apply (bool_decide_unpack (NoDup members)). by vm_compute. Qed.

(** C7.  Whatever initialiser or constructor body raises, the members that
    were initialised are released in exactly the reverse of their
    initialisation order, which is a prefix of the declaration order;
    so a member declared earlier is released later.  A complete teardown
    releases the resource pool, then Descriptor, Pipeline, Shader, Command,
    the queue and the device, and the Adapter last. *)
Theorem teardown_reverse_order throws body_throws :
  released (lifecycle throws body_throws)
    = reverse (initialised (lifecycle throws body_throws))
  ∧ (∃ n, initialised (lifecycle throws body_throws) = take n members)
  ∧ (∀ a b, before a b members →
            b ∈ released (lifecycle throws body_throws) →
            before b a (released (lifecycle throws body_throws)))
  ∧ ((∀ m, throws m = false) →
     released (lifecycle throws body_throws)
       = [resource_; descriptor_; pipeline_; shader_; command_; queue_;
          device_; adapter_]).
Proof.
  destruct (lifecycle_spec throws body_throws) as (n & Hi & Hr).
  split_and!.
  - by rewrite Hi, Hr.
  - by exists n.
  - intros a b Hab Hb. rewrite Hr in *. apply before_reverse.
    apply before_take; [apply NoDup_members|done|].
    by apply elem_of_reverse.
  - intros Hno. unfold lifecycle, constructor, members. cbn.
    rewrite !Hno. cbn. by destruct body_throws.
Qed.

Lemma teardown_reverse_order_witness :
  before descriptor_ pipeline_ (released (lifecycle (λ _, false) false)).
Proof.
  destruct (teardown_reverse_order (λ _, false) false)
    as (_ & _ & Horder & Hfull).
  apply Horder.
  - by exists [adapter_; device_; queue_; command_; shader_], [], [resource_].
  - rewrite Hfull by reflexivity.
    apply list_elem_of_further, list_elem_of_here.
Defined.

End LifetimeProperties.

(** * Properties of the Context *)

Section Rules.
Import Vulkan.
Local Open Scope nat_scope.

(** ** Reasoning rules for the operations *)

Lemma bind_Ok {A B} (m : M A) (f : A → M B) w r :
  (m ≫= f) w = Ok r ↔ ∃ a w1, m w = Ok (a, w1) ∧ f a w1 = Ok r.
Proof.
  unfold mbind, M_bind. destruct (m w) as [[a w1]|e]; split.
  - intros Hf. by exists a, w1.
  - by intros (? & ? & [= -> ->] & ?).
  - done.
  - by intros (? & ? & ? & _).
Qed.

Lemma wp_bind {A B} (m : M A) (f : A → M B) w Q :
  wp m w (λ a w1, wp (f a) w1 Q) → wp (m ≫= f) w Q.
Proof.
  intros (a & w1 & Hm & (r & w' & Hf & HQ)). exists r, w'.
  split; [|done]. apply bind_Ok. eauto.
Qed.

Lemma wp_ret {A} (a : A) w (Q : A → World → Prop) : Q a w → wp (mret a) w Q.
Proof. intros HQ. by exists a, w. Qed.

Lemma wp_elim {A} (m : M A) w Q a w' :
  wp m w Q → m w = Ok (a, w') → Q a w'.
Proof. intros (? & ? & Heq & HQ) Hm. rewrite Hm in Heq. by injection Heq as <- <-. Qed.

Lemma wp_mono {A} (m : M A) w (Q Q' : A → World → Prop) :
  wp m w Q → (∀ a w', Q a w' → Q' a w') → wp m w Q'.
Proof. intros (a & w' & ? & ?) HQ. exists a, w'. eauto. Qed.

Lemma wp_emit e w (Q : unit → World → Prop) :
  Q tt {| next_handle := next_handle w; objects := objects w;
          the_context := the_context w; heap := heap w;
          log := log w ++ [e] |} →
  wp (emit e) w Q.
Proof. intros HQ. eexists _, _. split; [done|]. done. Qed.

Lemma wp_create o w (Q : Handle → World → Prop) :
  Q (next_handle w)
    {| next_handle := S (next_handle w);
       objects := <[next_handle w := o]> (objects w);
       the_context := the_context w; heap := heap w; log := log w |} →
  wp (create o) w Q.
Proof. intros HQ. eexists _, _. split; [done|]. done. Qed.

Lemma wp_load w ctx (Q : Context → World → Prop) :
  the_context w = Some ctx → Q ctx w → wp (load TheContext) w Q.
Proof. intros Hc HQ. exists ctx, w. unfold load. by rewrite Hc. Qed.

Lemma wp_store ctx w (Q : unit → World → Prop) :
  Q tt {| next_handle := next_handle w; objects := objects w;
          the_context := Some ctx; heap := heap w; log := log w |} →
  wp (store TheContext ctx) w Q.
Proof. intros HQ. eexists _, _. split; [done|]. done. Qed.

Lemma wp_assert b cond w (Q : unit → World → Prop) :
  (b = Debug → cond = true) → Q tt w →
  wp (TORCH_INTERNAL_ASSERT_DEBUG_ONLY b cond) w Q.
Proof.
  intros Hc HQ. exists tt, w. split; [|done].
  destruct b; [|done]. cbn. by rewrite Hc.
Qed.

Lemma wp_retrieve {K V} `{Countable K} (c : Cache K V) k w ctx
    (Q : V → World → Prop) :
  CacheLaws c →
  the_context w = Some ctx →
  (∀ v created,
     hit_or_miss c k v created ctx w →
     Q v (retrieved c k v created ctx w)) →
  wp (retrieve c TheContext k) w Q.
Proof.
  intros Hlaws Hctx HQ. unfold retrieve.
  apply wp_bind, (wp_load _ ctx); [done|].
  destruct (cache_get c ctx !! k) as [v|] eqn:Hk.
  - apply wp_bind, wp_emit, wp_ret.
    specialize (HQ v false Hk). unfold retrieved, ctx_after in HQ.
    by rewrite Hctx in *.
  - apply wp_bind, wp_create, wp_bind, wp_store, wp_bind, wp_emit, wp_ret.
    specialize (HQ (wrap c k (next_handle w)) true (conj Hk eq_refl)).
    unfold retrieved, ctx_after in HQ. cbn.
    by rewrite (handle_wrap c) in HQ.
Qed.

Lemma wp_context w (Q : Ref → World → Prop) :
  Q TheContext (started w) → wp context w Q.
Proof.
  intros HQ. unfold wp, context, started in *. cbv beta.
  destruct (the_context w) as [ctx|] eqn:Hc.
  - by exists TheContext, w.
  - eexists _, _. split; [done|]. done.
Qed.

Lemma wp_pool_allocate layout w ctx (Q : DescriptorSet → World → Prop) :
  the_context w = Some ctx →
  Q {| set_handle := next_handle w |} (allocated (handle layout) ctx w) →
  wp (pool_allocate TheContext layout) w Q.
Proof.
  intros Hc HQ. unfold pool_allocate.
  apply wp_bind, wp_create, wp_bind, (wp_load _ ctx); [done|].
  by apply wp_bind, wp_store, wp_bind, wp_emit, wp_ret.
Qed.

Lemma started_context w : is_Some (the_context (started w)).
Proof. unfold started. destruct (the_context w) eqn:Hc; cbn; eauto. Qed.

Lemma started_ready b w :
  gpu_ready b w = true → gpu_ready b (started w) = true.
Proof.
  unfold gpu_ready, started. destruct b; [|done].
  by destruct (the_context w) as [ctx|] eqn:Hc; cbn; rewrite ?Hc.
Qed.

Lemma gpu_ready_Debug w ctx :
  gpu_ready Debug w = true → the_context w = Some ctx →
  device_ ctx ≠ VK_NULL_HANDLE ∧ queue_ ctx ≠ VK_NULL_HANDLE.
Proof.
  unfold gpu_ready, initialized. intros Hr Hc. rewrite Hc in Hr.
  apply andb_true_iff in Hr as [Hd Hq].
  split; by eapply bool_decide_eq_true_1.
Qed.

Lemma wp_gpu b w ctx (Q : GPU → World → Prop) :
  the_context w = Some ctx →
  gpu_ready b w = true →
  Q {| gpu_adapter := adapter_ ctx; gpu_device := device_ ctx;
       gpu_queue := queue_ ctx |} w →
  wp (gpu b TheContext) w Q.
Proof.
  intros Hc Hready HQ. unfold gpu, device, queue.
  apply wp_bind, (wp_load _ ctx); [done|].
  apply wp_bind, wp_bind, (wp_load _ ctx); [done|].
  apply wp_bind, wp_assert.
  { intros ->. apply bool_decide_eq_true. by eapply gpu_ready_Debug. }
  apply wp_ret, wp_bind, wp_bind, (wp_load _ ctx); [done|].
  apply wp_bind, wp_assert.
  { intros ->. apply bool_decide_eq_true. by eapply gpu_ready_Debug. }
  by apply wp_ret, wp_ret.
Qed.

Lemma wp_bind_args set : ∀ arguments Indices w (Q : unit → World → Prop),
  length Indices = length arguments →
  Q tt {| next_handle := next_handle w; objects := objects w;
          the_context := the_context w; heap := heap w;
          log := log w ++ zip_with (EvUpdate (set_handle set)) Indices
                            arguments |} →
  wp (bind set Indices arguments) w Q.
Proof.
  induction arguments as [|a args IH]; intros [|i idx] w Q Hlen HQ;
    try discriminate.
  - apply wp_ret. cbn in HQ. rewrite app_nil_r in HQ. by destruct w.
  - cbn [bind]. apply wp_bind. unfold Set_bind. apply wp_emit.
    apply IH; [by injection Hlen|]. cbn [next_handle objects the_context heap log].
    cbn in HQ. by rewrite <- app_assoc.
Qed.

Lemma zip_with_seq_imap {A B} (f : nat → A → B) (l : list A) n :
  zip_with f (seq n (length l)) l = imap (λ i, f (n + i)) l.
Proof.
  revert n. induction l as [|a l IH]; intros n; [done|].
  cbn. rewrite Nat.add_0_r. f_equal. rewrite IH.
  apply imap_ext. intros i x _. cbn. f_equal. lia.
Qed.

(** ** The four caches *)

Lemma shader_layout_laws : CacheLaws shader_layout.
Proof. split; try done. by intros ?? [=]. Qed.

Lemma shader_module_laws : CacheLaws shader_module.
Proof. split; try done. by intros ?? [=]. Qed.

Lemma pipeline_layout_laws : CacheLaws pipeline_layout.
Proof. split; try done. by intros [??] [??] [= -> ->]. Qed.

Lemma pipeline_laws : CacheLaws pipeline.
Proof. split; try done. by intros [[??]?] [[??]?] [= -> -> ->]. Qed.

(** ** The rule for dispatch *)

Lemma wp_dispatch b this cb sig sd g l params args w
    (Q : unit → World → Prop) :
  gpu_ready b w = true →
  (∀ ctx0 slo c1 pl c2 sm c3 pp c4,
     the_context (started w) = Some ctx0 →
     let w1 := retrieved shader_layout sig slo c1 ctx0 (started w) in
     let ctx1 := ctx_after shader_layout sig slo c1 ctx0 in
     hit_or_miss shader_layout sig slo c1 ctx0 (started w) →
     let k2 := (handle slo, length params) in
     let w2 := retrieved pipeline_layout k2 pl c2 ctx1 w1 in
     let ctx2 := ctx_after pipeline_layout k2 pl c2 ctx1 in
     hit_or_miss pipeline_layout k2 pl c2 ctx1 w1 →
     let w2' :=
       logged [EvPushConstants (cb_handle cb) pl VK_SHADER_STAGE_COMPUTE_BIT
                 0 (length params) params] w2 in
     let w3 := retrieved shader_module sd sm c3 ctx2 w2' in
     let ctx3 := ctx_after shader_module sd sm c3 ctx2 in
     hit_or_miss shader_module sd sm c3 ctx2 w2' →
     let k4 := (pl, sm, l) in
     let w4 := retrieved pipeline k4 pp c4 ctx3 w3 in
     let ctx4 := ctx_after pipeline k4 pp c4 ctx3 in
     hit_or_miss pipeline k4 pp c4 ctx3 w3 →
     let w5 :=
       allocated (handle slo) ctx4 (logged [EvBindPipeline (cb_handle cb) pp] w4) in
     Q tt (logged (bind_events (next_handle w4) args ++
                   [EvBindDescriptorSet (cb_handle cb) (next_handle w4);
                    EvDispatch (cb_handle cb) g]) w5)) →
  wp (dispatch b this cb sig sd g l params args) w Q.
Proof.
  intros Hready HQ. unfold dispatch.
  apply wp_bind, wp_context.
  destruct (started_context w) as [ctx0 Hctx0].
  apply wp_bind, (wp_gpu _ _ ctx0); [done|by apply started_ready|].
  apply wp_bind, (wp_retrieve _ _ _ ctx0);
    [apply shader_layout_laws|done|]. intros slo c1 H1.
  apply wp_bind. eapply wp_retrieve;
    [apply pipeline_layout_laws|reflexivity|]. intros pl c2 H2.
  apply wp_bind. unfold vkCmdPushConstants. apply wp_emit.
  apply wp_bind. eapply wp_retrieve;
    [apply shader_module_laws|reflexivity|]. intros sm c3 H3.
  apply wp_bind. eapply wp_retrieve;
    [apply pipeline_laws|reflexivity|]. intros pp c4 H4.
  apply wp_bind. unfold Buffer_bind_pipeline. apply wp_emit.
  apply wp_bind. eapply wp_pool_allocate; [reflexivity|].
  apply wp_bind, wp_bind_args; [apply length_seq|].
  apply wp_bind. unfold Buffer_bind_set. apply wp_emit.
  unfold Buffer_dispatch. apply wp_emit.
  specialize (HQ ctx0 slo c1 pl c2 sm c3 pp c4 Hctx0 H1 H2 H3 H4).
  unfold logged in *. cbn in *.
  unfold index_sequence_for, sizeof in *.
  rewrite firstn_all.
  rewrite (zip_with_seq_imap (EvUpdate _) args 0).
  rewrite <- !app_assoc in *. exact HQ.
Qed.

Lemma dispatch_spec b this cb sig sd g l params args w :
  gpu_ready b w = true →
  wp (dispatch b this cb sig sd g l params args) w
    (λ _ w', ∃ slo pl sm pp ds c1 c2 c3 c4,
       dispatch_post w w' (cb_handle cb) sig sd g l params args
         slo pl sm pp ds c1 c2 c3 c4).
Proof.
  intros Hready. apply wp_dispatch; [done|].
  intros ctx0 slo c1 pl c2 sm c3 pp c4 Hctx0 w1 ctx1 H1 k2 w2 ctx2 H2
    w2' w3 ctx3 H3 k4 w4 ctx4 H4 w5.
  exists slo, pl, sm, pp, (next_handle w4), c1, c2, c3, c4.
  assert (Hlog0 : log (started w) = log w).
  { unfold started. by destruct (the_context w). }
  assert (Hheap0 : heap (started w) = heap w).
  { unfold started. by destruct (the_context w). }
  assert (Hnext0 : next_handle w ≤ next_handle (started w)).
  { unfold started. destruct (the_context w); cbn; lia. }
  assert (Hsame : ∀ ctx, the_context w = Some ctx → started w = w ∧ ctx0 = ctx).
  { intros ctx Hc. unfold started in *. rewrite Hc in *. naive_solver. }
  split.
  - cbn. rewrite Hlog0. unfold dispatch_events.
    rewrite <- !app_assoc. done.
  - cbn. done.
  - intros b' Hb'%started_ready. revert Hb'. unfold gpu_ready, initialized.
    destruct b'; [|done]. rewrite Hctx0.
    subst w5 ctx4 ctx3 ctx2 ctx1 w4 w3 w2' w2 w1 k2 k4.
    by destruct c1, c2, c3, c4.
  - subst w5 ctx4 ctx3 ctx2 ctx1 w4 w3 w2' w2 w1 k2 k4. cbn.
    split_and!; try (destruct c1, c2, c3, c4; cbn; lia).
    by rewrite lookup_insert_eq.
  - eexists. split; [reflexivity|].
    unfold hit_or_miss in *.
    split_and!.
    + subst ctx4 ctx3 ctx2 ctx1 w4 w3 w2' w2 w1 k2 k4.
      destruct c1, c2, c3, c4; cbn in *; destruct_and?; subst;
        rewrite ?lookup_insert_eq; done.
    + subst ctx4 ctx3 ctx2 ctx1 w4 w3 w2' w2 w1 k2 k4.
      destruct c1, c2, c3, c4; cbn in *; destruct_and?; subst;
        rewrite ?lookup_insert_eq; done.
    + subst ctx4 ctx3 ctx2 ctx1 w4 w3 w2' w2 w1 k2 k4.
      destruct c1, c2, c3, c4; cbn in *; destruct_and?; subst;
        rewrite ?lookup_insert_eq; done.
    + subst ctx4 ctx3 ctx2 ctx1 w4 w3 w2' w2 w1 k2 k4.
      destruct c1, c2, c3, c4; cbn in *; destruct_and?; subst;
        rewrite ?lookup_insert_eq; done.
    + cbn. apply list_elem_of_here.
    + intros ctx Hc. destruct (Hsame ctx Hc) as [Hw ->].
      subst ctx4 ctx3 ctx2 ctx1 w4 w3 w2' w2 w1 k2 k4.
      unfold caches_le.
      destruct c1, c2, c3, c4; cbn in *; split_and!; try done;
        try (apply insert_subseteq; tauto).
  - intros ctx Hc. destruct (Hsame ctx Hc) as [Hw ->].
    unfold hit_or_miss in *.
    subst ctx4 ctx3 ctx2 ctx1 w4 w3 w2' w2 w1 k2 k4.
    destruct c1, c2, c3, c4; cbn in *; destruct_and?;
      split_and!; intros v Hv; split; congruence.
Qed.

(** ** The invariant is preserved *)

Lemma agrees_insert_uncached {K V} `{Countable K} (c : Cache K V) ctx objs h o :
  CacheLaws c → cached o = false →
  (∀ h' o', objs !! h' = Some o' → h' < h) →
  agrees c ctx objs → agrees c ctx (<[h := o]> objs).
Proof.
  intros Hlaws Ho Hfresh [Hin Hout]. split.
  - intros k v Hk. destruct (Hin k v Hk) as [Hv Hobj]. split; [done|].
    rewrite lookup_insert_ne; [done|]. apply Hfresh in Hobj. lia.
  - intros h' k. rewrite lookup_insert. case_decide as Heq; [|apply Hout].
    intros [= ->]. by rewrite (describe_cached c Hlaws) in Ho.
Qed.

Lemma agrees_retrieved_same {K V} `{Countable K} (c : Cache K V) ctx objs k h :
  CacheLaws c →
  (∀ h' o', objs !! h' = Some o' → h' < h) →
  cache_get c ctx !! k = None →
  agrees c ctx objs →
  agrees c (cache_set c (<[k := wrap c k h]> (cache_get c ctx)) ctx)
    (<[h := describe c k]> objs).
Proof.
  intros Hlaws Hfresh Hmiss [Hin Hout]. split.
  - intros k' v. rewrite (get_set c Hlaws), lookup_insert.
    case_decide as Heq.
    + intros [= <-]. subst k'. rewrite (handle_wrap c Hlaws).
      by rewrite lookup_insert_eq.
    + intros Hk. destruct (Hin k' v Hk) as [Hv Hobj]. split; [done|].
      rewrite lookup_insert_ne; [done|]. apply Hfresh in Hobj. lia.
  - intros h' k'. rewrite (get_set c Hlaws), lookup_insert.
    case_decide as Heq.
    + intros [= Hd]. apply (describe_inj c Hlaws) in Hd. subst.
      by rewrite lookup_insert_eq.
    + intros Hobj. specialize (Hout _ _ Hobj).
      rewrite lookup_insert_ne; [done|]. intros ->. congruence.
Qed.

Lemma agrees_retrieved_other {K V K' V'} `{Countable K} `{Countable K'}
    (c : Cache K V) (c' : Cache K' V') ctx objs m k h :
  Independent c c' →
  (∀ h' o', objs !! h' = Some o' → h' < h) →
  agrees c' ctx objs →
  agrees c' (cache_set c m ctx) (<[h := describe c k]> objs).
Proof.
  intros Hind Hfresh [Hin Hout]. split.
  - intros k' v. rewrite (get_set_other c c' Hind). intros Hk.
    destruct (Hin k' v Hk) as [Hv Hobj]. split; [done|].
    rewrite lookup_insert_ne; [done|]. apply Hfresh in Hobj. lia.
  - intros h' k'. rewrite (get_set_other c c' Hind), lookup_insert.
    case_decide as Heq; [|apply Hout].
    intros [= Hd]. by destruct (describe_other c c' Hind k k').
Qed.

Lemma agrees_set_descriptor {K V} `{Countable K} (c : Cache K V) ctx d objs :
  CacheLaws c → agrees c ctx objs → agrees c (set_descriptor d ctx) objs.
Proof.
  intros Hlaws [Hin Hout].
  split; intros ??; rewrite (get_set_descriptor c Hlaws); auto.
Qed.

Lemma Inv_world0 : Inv world0.
Proof. by split. Qed.

Lemma Inv_logged evs w : Inv w → Inv (logged evs w).
Proof. by intros []. Qed.

Lemma new_objects_lookup w h o :
  new_objects w !! h = Some o →
  (cached o = false ∧ next_handle w ≤ h < S (S (S (next_handle w)))) ∨
  objects w !! h = Some o.
Proof.
  unfold new_objects. rewrite !lookup_insert.
  repeat case_decide; intros Ho; simplify_eq; auto; left; split; done || lia.
Qed.


Lemma fresh_new_objects w :
  (∀ h o, objects w !! h = Some o → h < next_handle w) →
  ∀ h o, new_objects w !! h = Some o → h < S (S (S (next_handle w))).
Proof.
  intros Hfresh h o [[_ ?]|Ho%Hfresh]%new_objects_lookup; lia.
Qed.

Lemma agrees_new_objects {K V} `{Countable K} (c : Cache K V) ctx w :
  CacheLaws c →
  (∀ h o, objects w !! h = Some o → h < next_handle w) →
  agrees c ctx (objects w) → agrees c ctx (new_objects w).
Proof.
  intros Hlaws Hfresh Hag. unfold new_objects.
  apply agrees_insert_uncached; [done|done| |].
  { intros h' o'. rewrite !lookup_insert.
    repeat case_decide; intros Ho; simplify_eq; try lia.
    apply Hfresh in Ho. lia. }
  apply agrees_insert_uncached; [done|done| |].
  { intros h' o'. rewrite !lookup_insert.
    repeat case_decide; intros Ho; simplify_eq; try lia.
    apply Hfresh in Ho. lia. }
  apply agrees_insert_uncached; [done|done| |done].
  intros h' o' Ho. by apply Hfresh in Ho.
Qed.

Lemma agrees_new_context {K V} `{Countable K} (c : Cache K V) w :
  CacheLaws c →
  cache_get c (new_context w) = ∅ →
  (∀ h o, objects w !! h = Some o → cached o = false) →
  agrees c (new_context w) (new_objects w).
Proof.
  intros Hlaws Hempty Hnone. split.
  - intros k v. by rewrite Hempty, lookup_empty.
  - intros h k [[Hc _]|Ho%Hnone]%new_objects_lookup;
      by rewrite (describe_cached c Hlaws) in *.
Qed.

Lemma Inv_started w : Inv w → Inv (started w).
Proof.
  intros HI. unfold started. destruct (the_context w) as [ctx|] eqn:Hc; [done|].
  destruct HI as [Hfresh Hnone _ _ _ _]. specialize (Hnone Hc).
  split; cbn.
  - by apply fresh_new_objects.
  - done.
  - intros ? [= <-].
    apply agrees_new_context; [apply shader_layout_laws|done|done].
  - intros ? [= <-].
    apply agrees_new_context; [apply shader_module_laws|done|done].
  - intros ? [= <-].
    apply agrees_new_context; [apply pipeline_layout_laws|done|done].
  - intros ? [= <-].
    apply agrees_new_context; [apply pipeline_laws|done|done].
Qed.

Lemma Inv_constructed w a :
  Inv w →
  Inv {| next_handle := S (S (S (next_handle w)));
         objects := new_objects w;
         the_context := the_context w;
         heap := <[a := new_context w]> (heap w); log := log w |}.
Proof.
  intros [Hfresh Hnone H1 H2 H3 H4]. split; cbn.
  - by apply fresh_new_objects.
  - intros Hc h o [[? _]|Ho]%new_objects_lookup; [done|]. by eapply Hnone.
  - intros ctx Hc.
    apply agrees_new_objects; [apply shader_layout_laws|done|auto].
  - intros ctx Hc.
    apply agrees_new_objects; [apply shader_module_laws|done|auto].
  - intros ctx Hc.
    apply agrees_new_objects; [apply pipeline_layout_laws|done|auto].
  - intros ctx Hc.
    apply agrees_new_objects; [apply pipeline_laws|done|auto].
Qed.

Lemma Inv_allocated layout ctx w :
  Inv w → the_context w = Some ctx → Inv (allocated layout ctx w).
Proof.
  intros [Hfresh Hnone H1 H2 H3 H4] Hc. split; cbn.
  - intros h o. rewrite lookup_insert. case_decide; [intros; lia|].
    intros Ho%Hfresh. lia.
  - done.
  - intros ? [= <-]. apply agrees_set_descriptor; [apply shader_layout_laws|].
    apply agrees_insert_uncached; [apply shader_layout_laws|done|done|auto].
  - intros ? [= <-]. apply agrees_set_descriptor; [apply shader_module_laws|].
    apply agrees_insert_uncached; [apply shader_module_laws|done|done|auto].
  - intros ? [= <-]. apply agrees_set_descriptor; [apply pipeline_layout_laws|].
    apply agrees_insert_uncached; [apply pipeline_layout_laws|done|done|auto].
  - intros ? [= <-]. apply agrees_set_descriptor; [apply pipeline_laws|].
    apply agrees_insert_uncached; [apply pipeline_laws|done|done|auto].
Qed.

Lemma Inv_purged d ctx w :
  Inv w → the_context w = Some ctx →
  Inv {| next_handle := next_handle w; objects := objects w;
         the_context := Some (set_descriptor d ctx);
         heap := heap w; log := log w |}.
Proof.
  intros [Hfresh Hnone H1 H2 H3 H4] Hc. split; cbn; [done|done|..];
    intros ? [= <-]; apply agrees_set_descriptor; auto;
    [apply shader_layout_laws|apply shader_module_laws
    |apply pipeline_layout_laws|apply pipeline_laws].
Qed.

Lemma Inv_heap hp w :
  Inv w →
  Inv {| next_handle := next_handle w; objects := objects w;
         the_context := the_context w; heap := hp; log := log w |}.
Proof. by intros []. Qed.

Ltac independent := split; [done | by intros].

Lemma Inv_retrieved_shader_layout w ctx k v created :
  Inv w → the_context w = Some ctx →
  hit_or_miss shader_layout k v created ctx w →
  Inv (retrieved shader_layout k v created ctx w).
Proof.
  intros [Hfresh Hnone H1 H2 H3 H4] Hc Hm.
  destruct created; [destruct Hm as [Hmiss ->]|];
    split; cbn; try done; try (by intros ? [= <-]; auto).
  - intros h o. rewrite lookup_insert. case_decide; [intros; lia|].
    intros Ho%Hfresh. lia.
  - intros ? [= <-].
    apply (agrees_retrieved_same shader_layout);
      [apply shader_layout_laws|done|done|auto].
  - intros ? [= <-].
    apply (agrees_retrieved_other shader_layout shader_module);
      [independent|done|auto].
  - intros ? [= <-].
    apply (agrees_retrieved_other shader_layout pipeline_layout);
      [independent|done|auto].
  - intros ? [= <-].
    apply (agrees_retrieved_other shader_layout pipeline);
      [independent|done|auto].
Qed.

Lemma Inv_retrieved_shader_module w ctx k v created :
  Inv w → the_context w = Some ctx →
  hit_or_miss shader_module k v created ctx w →
  Inv (retrieved shader_module k v created ctx w).
Proof.
  intros [Hfresh Hnone H1 H2 H3 H4] Hc Hm.
  destruct created; [destruct Hm as [Hmiss ->]|];
    split; cbn; try done; try (by intros ? [= <-]; auto).
  - intros h o. rewrite lookup_insert. case_decide; [intros; lia|].
    intros Ho%Hfresh. lia.
  - intros ? [= <-].
    apply (agrees_retrieved_other shader_module shader_layout);
      [independent|done|auto].
  - intros ? [= <-].
    apply (agrees_retrieved_same shader_module);
      [apply shader_module_laws|done|done|auto].
  - intros ? [= <-].
    apply (agrees_retrieved_other shader_module pipeline_layout);
      [independent|done|auto].
  - intros ? [= <-].
    apply (agrees_retrieved_other shader_module pipeline);
      [independent|done|auto].
Qed.

Lemma Inv_retrieved_pipeline_layout w ctx k v created :
  Inv w → the_context w = Some ctx →
  hit_or_miss pipeline_layout k v created ctx w →
  Inv (retrieved pipeline_layout k v created ctx w).
Proof.
  intros [Hfresh Hnone H1 H2 H3 H4] Hc Hm.
  destruct created; [destruct Hm as [Hmiss ->]|];
    split; cbn; try done; try (by intros ? [= <-]; auto).
  - intros h o. rewrite lookup_insert. case_decide; [intros; lia|].
    intros Ho%Hfresh. lia.
  - intros ? [= <-].
    apply (agrees_retrieved_other pipeline_layout shader_layout);
      [independent|done|auto].
  - intros ? [= <-].
    apply (agrees_retrieved_other pipeline_layout shader_module);
      [independent|done|auto].
  - intros ? [= <-].
    apply (agrees_retrieved_same pipeline_layout);
      [apply pipeline_layout_laws|done|done|auto].
  - intros ? [= <-].
    apply (agrees_retrieved_other pipeline_layout pipeline);
      [independent|done|auto].
Qed.

Lemma Inv_retrieved_pipeline w ctx k v created :
  Inv w → the_context w = Some ctx →
  hit_or_miss pipeline k v created ctx w →
  Inv (retrieved pipeline k v created ctx w).
Proof.
  intros [Hfresh Hnone H1 H2 H3 H4] Hc Hm.
  destruct created; [destruct Hm as [Hmiss ->]|];
    split; cbn; try done; try (by intros ? [= <-]; auto).
  - intros h o. rewrite lookup_insert. case_decide; [intros; lia|].
    intros Ho%Hfresh. lia.
  - intros ? [= <-].
    apply (agrees_retrieved_other pipeline shader_layout);
      [independent|done|auto].
  - intros ? [= <-].
    apply (agrees_retrieved_other pipeline shader_module);
      [independent|done|auto].
  - intros ? [= <-].
    apply (agrees_retrieved_other pipeline pipeline_layout);
      [independent|done|auto].
  - intros ? [= <-].
    apply (agrees_retrieved_same pipeline);
      [apply pipeline_laws|done|done|auto].
Qed.


(** ** Every call preserves the invariant and the cache entries *)

Lemma dispatch_Inv b this cb sig sd g l params args w :
  gpu_ready b w = true → Inv w →
  wp (dispatch b this cb sig sd g l params args) w (λ _ w', Inv w').
Proof.
  intros Hready HI. apply wp_dispatch; [done|].
  intros ctx0 slo c1 pl c2 sm c3 pp c4 Hctx0 w1 ctx1 H1 k2 w2 ctx2 H2
    w2' w3 ctx3 H3 k4 w4 ctx4 H4 w5.
  apply Inv_logged, Inv_allocated; [apply Inv_logged|done].
  apply Inv_retrieved_pipeline; [|done|done].
  apply Inv_retrieved_shader_module; [|done|done].
  apply Inv_logged.
  apply Inv_retrieved_pipeline_layout; [|done|done].
  apply Inv_retrieved_shader_layout; [|done|done].
  by apply Inv_started.
Qed.

Lemma load_Ok r w ctx w' :
  load r w = Ok (ctx, w') →
  w' = w ∧
  match r with TheContext => the_context w | Other a => heap w !! a end
    = Some ctx.
Proof.
  unfold load.
  destruct (match r with TheContext => _ | Other _ => _ end); [|done].
  by intros [= -> ->].
Qed.

Lemma assert_Ok b cond w r :
  TORCH_INTERNAL_ASSERT_DEBUG_ONLY b cond w = Ok r →
  r = (tt, w) ∧ (b = Debug → cond = true).
Proof.
  destruct b, cond; cbn; intros [= <-] || intros [=]; by split.
Qed.

Lemma device_Ok b this w h w' :
  device b this w = Ok (h, w') →
  w' = w ∧ ∃ ctx, load this w = Ok (ctx, w) ∧ h = device_ ctx ∧
                  (b = Debug → device_ ctx ≠ VK_NULL_HANDLE).
Proof.
  unfold device. intros Hd.
  apply bind_Ok in Hd as (ctx & w1 & Hl & Hd).
  destruct (load_Ok _ _ _ _ Hl) as [-> _].
  apply bind_Ok in Hd as (u & w2 & Ha & Hr).
  apply assert_Ok in Ha as [[= -> ->] Hcond]. injection Hr as <- <-.
  split; [done|]. exists ctx. split_and!; [done|done|].
  intros Hb. by eapply bool_decide_eq_true_1, Hcond.
Qed.

Lemma queue_Ok b this w h w' :
  queue b this w = Ok (h, w') →
  w' = w ∧ ∃ ctx, load this w = Ok (ctx, w) ∧ h = queue_ ctx ∧
                  (b = Debug → queue_ ctx ≠ VK_NULL_HANDLE).
Proof.
  unfold queue. intros Hd.
  apply bind_Ok in Hd as (ctx & w1 & Hl & Hd).
  destruct (load_Ok _ _ _ _ Hl) as [-> _].
  apply bind_Ok in Hd as (u & w2 & Ha & Hr).
  apply assert_Ok in Ha as [[= -> ->] Hcond]. injection Hr as <- <-.
  split; [done|]. exists ctx. split_and!; [done|done|].
  intros Hb. by eapply bool_decide_eq_true_1, Hcond.
Qed.

Lemma dispatch_Ok_ready b this cb sig sd g l params args w r :
  dispatch b this cb sig sd g l params args w = Ok r → gpu_ready b w = true.
Proof.
  intros Hd. destruct b; [|done]. unfold gpu_ready, initialized.
  destruct (the_context w) as [ctx|] eqn:Hc; [|done].
  unfold dispatch in Hd.
  apply bind_Ok in Hd as (r1 & w1 & Hctx & Hd).
  unfold context in Hctx. rewrite Hc in Hctx. injection Hctx as <- <-.
  apply bind_Ok in Hd as (gp & w2 & Hgpu & _).
  unfold gpu in Hgpu.
  apply bind_Ok in Hgpu as (ctx0 & w3 & Hl & Hgpu).
  apply load_Ok in Hl as [-> _].
  apply bind_Ok in Hgpu as (d & w4 & Hdev & Hgpu).
  apply device_Ok in Hdev as (-> & ctx1 & Hl1 & -> & Hd1).
  apply bind_Ok in Hgpu as (q & w5 & Hq & _).
  apply queue_Ok in Hq as (-> & ctx2 & Hl2 & -> & Hd2).
  apply load_Ok in Hl1 as [_ Hl1]. apply load_Ok in Hl2 as [_ Hl2].
  rewrite Hc in *. simplify_eq.
  apply andb_true_iff. split; apply bool_decide_eq_true; auto.
Qed.

Lemma dispatch_inv b this cb sig sd g l params args w w' :
  dispatch b this cb sig sd g l params args w = Ok (tt, w') →
  gpu_ready b w = true ∧
  (∃ slo pl sm pp ds c1 c2 c3 c4,
     dispatch_post w w' (cb_handle cb) sig sd g l params args
       slo pl sm pp ds c1 c2 c3 c4) ∧
  (Inv w → Inv w').
Proof.
  intros Hd. pose proof (dispatch_Ok_ready _ _ _ _ _ _ _ _ _ _ _ Hd) as Hr.
  split_and!; [done| |].
  - by apply (wp_elim _ _ _ _ _ (dispatch_spec b this cb sig sd g l params
                                   args w Hr) Hd).
  - intros HI.
    by apply (wp_elim _ _ _ _ _ (dispatch_Inv b this cb sig sd g l params
                                   args w Hr HI) Hd).
Qed.

Lemma caches_le_refl ctx : caches_le ctx ctx.
Proof. by unfold caches_le. Qed.

Lemma caches_le_trans ctx1 ctx2 ctx3 :
  caches_le ctx1 ctx2 → caches_le ctx2 ctx3 → caches_le ctx1 ctx3.
Proof.
  intros (?&?&?&?) (?&?&?&?). unfold caches_le.
  split_and!; by etrans.
Qed.

Lemma grows_refl w : grows w w.
Proof. intros ctx Hc. exists ctx. split; [done|apply caches_le_refl]. Qed.

Lemma grows_same w w' : the_context w' = the_context w → grows w w'.
Proof.
  intros Heq ctx Hc. exists ctx. rewrite Heq.
  split; [done|apply caches_le_refl].
Qed.

Lemma grows_trans w1 w2 w3 : grows w1 w2 → grows w2 w3 → grows w1 w3.
Proof.
  intros H12 H23 ctx1 Hc1. destruct (H12 _ Hc1) as (ctx2 & Hc2 & Hle12).
  destruct (H23 _ Hc2) as (ctx3 & Hc3 & Hle23). exists ctx3.
  split; [done|]. by eapply caches_le_trans.
Qed.

Lemma call_step b c w w' :
  call b c w = Ok (tt, w') → grows w w' ∧ (Inv w → Inv w').
Proof.
  destruct c as [this cb sig sd g l params args|this|this|cb|a]; cbn [call].
  - intros (_ & (slo & pl & sm & pp & ds & c1 & c2 & c3 & c4 & Hpost) & HI)
      %dispatch_inv.
    split; [|done]. intros ctx Hc.
    destruct (post_context _ _ _ _ _ _ _ _ _ _ _ _ _ _ _ _ _ _ Hpost)
      as (ctx' & Hc' & _ & _ & _ & _ & _ & Hle).
    exists ctx'. split; [done|]. by apply Hle.
  - unfold flush. intros Hf.
    apply bind_Ok in Hf as (q & w1 & Hq & He).
    apply queue_Ok in Hq as (-> & _). injection He as <-.
    split; [by apply grows_same|apply (Inv_logged [EvWaitIdle q])].
  - unfold pool_purge. intros Hp.
    apply bind_Ok in Hp as (ctx & w1 & Hl & Hp).
    apply bind_Ok in Hp as ([] & w2 & Hs & He).
    injection He as <-. injection Hs as <-.
    apply load_Ok in Hl as [-> Hl]. destruct this as [|a].
    + split.
      * intros ctx0 Hc. rewrite Hc in Hl. injection Hl as ->.
        eexists. split; [done|]. by unfold caches_le.
      * intros HI. apply (Inv_logged [EvResetPool]).
        by apply (Inv_purged _ ctx w).
    + split; [by apply grows_same|]. intros HI.
      apply (Inv_logged [EvResetPool]). by apply Inv_heap.
  - intros [= <-].
    split; [by apply grows_same|apply (Inv_logged [EvSubmit _])].
  - intros [= <-]. split; [by apply grows_same|apply Inv_constructed].
Qed.

Lemma run_step b cs : ∀ w w',
  run b cs w = Ok (tt, w') → grows w w' ∧ (Inv w → Inv w').
Proof.
  induction cs as [|c cs IH]; intros w w' Hrun.
  - injection Hrun as <-. split; [apply grows_refl|done].
  - cbn [run] in Hrun. apply bind_Ok in Hrun as ([] & w1 & Hc & Hrun).
    destruct (call_step _ _ _ _ Hc) as [Hg1 HI1].
    destruct (IH _ _ Hrun) as [Hg2 HI2].
    split; [by eapply grows_trans|auto].
Qed.

(** ** Reading the log of a dispatch *)

Lemma new_events_app w w' evs : log w' = log w ++ evs → new_events w w' = evs.
Proof. unfold new_events. intros ->. by rewrite drop_app_length. Qed.

Lemma omap_imap_None {A B C} (f : B → option C) (g : nat → A → B) l :
  (∀ i a, f (g i a) = None) → omap f (imap g l) = [].
Proof.
  revert g. induction l as [|a l IH]; intros g Hf; [done|].
  cbn. rewrite Hf. apply IH. intros i x. apply Hf.
Qed.

Lemma omap_imap_Some {A B C} (f : B → option C) (g : nat → A → B)
    (h : nat → A → C) l :
  (∀ i a, f (g i a) = Some (h i a)) → omap f (imap g l) = imap h l.
Proof.
  revert g h. induction l as [|a l IH]; intros g h Hf; [done|].
  cbn. rewrite Hf. f_equal. apply IH. intros i x. apply Hf.
Qed.

Lemma resolved_dispatch_events cb sig sd g l params args sl pl sm pp ds
    c1 c2 c3 c4 :
  resolved (dispatch_events cb sig sd g l params args sl pl sm pp ds
              c1 c2 c3 c4)
  = [ (ObjDescriptorSetLayout sig, sl);
      (ObjPipelineLayout sl (length params), pl);
      (ObjShaderModule sd, sm);
      (ObjPipeline pl sm l, pp) ].
Proof.
  unfold resolved, dispatch_events, bind_events. rewrite !omap_app.
  by rewrite omap_imap_None.
Qed.

Lemma bound_pipelines_dispatch_events cb sig sd g l params args sl pl sm pp
    ds c1 c2 c3 c4 :
  bound_pipelines (dispatch_events cb sig sd g l params args sl pl sm pp ds
                     c1 c2 c3 c4)
  = [(cb, pp)].
Proof.
  unfold bound_pipelines, dispatch_events, bind_events. rewrite !omap_app.
  by rewrite omap_imap_None.
Qed.

Lemma allocations_dispatch_events cb sig sd g l params args sl pl sm pp
    ds c1 c2 c3 c4 :
  allocations (dispatch_events cb sig sd g l params args sl pl sm pp ds
                 c1 c2 c3 c4)
  = [(sl, ds)].
Proof.
  unfold allocations, dispatch_events, bind_events. rewrite !omap_app.
  by rewrite omap_imap_None.
Qed.

Lemma pushes_dispatch_events cb sig sd g l params args sl pl sm pp
    ds c1 c2 c3 c4 :
  pushes (dispatch_events cb sig sd g l params args sl pl sm pp ds
            c1 c2 c3 c4)
  = [(cb, pl, VK_SHADER_STAGE_COMPUTE_BIT, 0, length params, params)].
Proof.
  unfold pushes, dispatch_events, bind_events. rewrite !omap_app.
  by rewrite omap_imap_None.
Qed.

Lemma updates_dispatch_events cb sig sd g l params args sl pl sm pp
    ds c1 c2 c3 c4 :
  updates (dispatch_events cb sig sd g l params args sl pl sm pp ds
             c1 c2 c3 c4)
  = imap (λ i a, (ds, i, a)) args.
Proof.
  unfold updates, dispatch_events, bind_events. rewrite !omap_app.
  rewrite (omap_imap_Some _ _ (λ i a, (ds, i, a))) by done.
  cbn. by rewrite app_nil_r.
Qed.

Lemma submissions_dispatch_events cb sig sd g l params args sl pl sm pp
    ds c1 c2 c3 c4 :
  Forall (λ e, is_submission e = false)
    (dispatch_events cb sig sd g l params args sl pl sm pp ds c1 c2 c3 c4).
Proof.
  unfold dispatch_events, bind_events. rewrite !Forall_app. split_and!.
  - by repeat constructor.
  - apply Forall_forall. intros e (i & a & -> & _)%elem_of_lookup_imap.
    done.
  - by repeat constructor.
Qed.

Lemma creations_dispatch_events cb sig sd g l params args sl pl sm pp ds :
  Forall (λ e, is_creation e = false)
    (dispatch_events cb sig sd g l params args sl pl sm pp ds
       false false false false).
Proof.
  unfold dispatch_events, bind_events. rewrite !Forall_app. split_and!.
  - by repeat constructor.
  - apply Forall_forall. intros e (i & a & -> & _)%elem_of_lookup_imap.
    done.
  - by repeat constructor.
Qed.

(** ** No two cached objects for one key *)

Lemma Inv_no_duplicates w h1 h2 o :
  Inv w → cached o = true →
  objects w !! h1 = Some o → objects w !! h2 = Some o → h1 = h2.
Proof.
  intros [_ Hnone H1 H2 H3 H4] Ho Hh1 Hh2.
  destruct (the_context w) as [ctx|] eqn:Hc.
  - destruct o as [| | |sig|sd|sl n|pl sm l|]; try done.
    + destruct (H1 ctx eq_refl) as [_ Hout].
      pose proof (Hout h1 sig Hh1) as E1. pose proof (Hout h2 sig Hh2) as E2.
      rewrite E1 in E2. by injection E2.
    + destruct (H2 ctx eq_refl) as [_ Hout].
      pose proof (Hout h1 sd Hh1) as E1. pose proof (Hout h2 sd Hh2) as E2.
      rewrite E1 in E2. by injection E2.
    + destruct (H3 ctx eq_refl) as [_ Hout].
      pose proof (Hout h1 (sl, n) Hh1) as E1.
      pose proof (Hout h2 (sl, n) Hh2) as E2.
      rewrite E1 in E2. by injection E2.
    + destruct (H4 ctx eq_refl) as [_ Hout].
      pose proof (Hout h1 (pl, sm, l) Hh1) as E1.
      pose proof (Hout h2 (pl, sm, l) Hh2) as E2.
      rewrite E1 in E2. by injection E2.
  - rewrite (Hnone eq_refl h1 o Hh1) in Ho. done.
Qed.


End Rules.

(** ** The claims about the Context *)

Section ContextClaims.
Import Vulkan.
Local Open Scope nat_scope.

(** C2.  Provided the device and queue assertions pass, a dispatch
    succeeds and what it does happens in this order: the descriptor-set
    layout is resolved, the pipeline layout is resolved, the parameter
    block is pushed, the shader module and the pipeline are resolved, the
    pipeline is bound, a descriptor set is allocated from the layout, the
    arguments are bound into it, the set is bound, the dispatch is recorded
    with the global work group.  Nothing is submitted or waited for. *)
Theorem dispatch_records_in_order b this cb sig sd g l params args w :
  gpu_ready b w = true →
  ∃ w' sl pl sm pp ds c1 c2 c3 c4,
    dispatch b this cb sig sd g l params args w = Ok (tt, w') ∧
    new_events w w' =
      [ EvRetrieve (ObjDescriptorSetLayout sig) sl c1;
        EvRetrieve (ObjPipelineLayout sl (sizeof params)) pl c2;
        EvPushConstants (cb_handle cb) pl VK_SHADER_STAGE_COMPUTE_BIT 0
          (sizeof params) params;
        EvRetrieve (ObjShaderModule sd) sm c3;
        EvRetrieve (ObjPipeline pl sm l) pp c4;
        EvBindPipeline (cb_handle cb) pp;
        EvAllocate sl ds ]
      ++ imap (λ i a, EvUpdate ds i a) args
      ++ [ EvBindDescriptorSet (cb_handle cb) ds;
           EvDispatch (cb_handle cb) g ] ∧
    Forall (λ e, is_submission e = false) (new_events w w').
Proof.
  intros Hready.
  destruct (dispatch_spec b this cb sig sd g l params args w Hready)
    as ([] & w' & Hd & slo & pl & sm & pp & ds & c1 & c2 & c3 & c4 & Hpost).
  exists w', (handle slo), pl, sm, pp, ds, c1, c2, c3, c4.
  pose proof (new_events_app _ _ _
    (post_log _ _ _ _ _ _ _ _ _ _ _ _ _ _ _ _ _ _ Hpost)) as Hev.
  split_and!; [done|by rewrite Hev|].
  rewrite Hev. apply submissions_dispatch_events.
Qed.

Lemma dispatch_records_in_order_witness :
  ∃ w' sl pl sm pp ds c1 c2 c3 c4,
    dispatch Debug TheContext {| cb_handle := 100 |} hardsigmoid_signature
      hardsigmoid_descriptor (Build_WorkGroup 4 4 1) (Build_WorkGroup 4 4 4)
      [Byte.x04; Byte.x00] [ImageObject 50; UniformObject 51] world0
      = Ok (tt, w') ∧
    new_events world0 w' =
      [ EvRetrieve (ObjDescriptorSetLayout hardsigmoid_signature) sl c1;
        EvRetrieve (ObjPipelineLayout sl 2) pl c2;
        EvPushConstants 100 pl VK_SHADER_STAGE_COMPUTE_BIT 0 2
          [Byte.x04; Byte.x00];
        EvRetrieve (ObjShaderModule hardsigmoid_descriptor) sm c3;
        EvRetrieve (ObjPipeline pl sm (Build_WorkGroup 4 4 4)) pp c4;
        EvBindPipeline 100 pp;
        EvAllocate sl ds ]
      ++ imap (λ i a, EvUpdate ds i a) [ImageObject 50; UniformObject 51]
      ++ [ EvBindDescriptorSet 100 ds;
           EvDispatch 100 (Build_WorkGroup 4 4 1) ] ∧
    Forall (λ e, is_submission e = false) (new_events world0 w').
Proof.
  apply (dispatch_records_in_order Debug TheContext {| cb_handle := 100 |}).
  reflexivity.
Defined.

(** C3.  The arguments of a dispatch are bound into the descriptor set that
    this dispatch allocated, the i-th argument at binding i, in argument
    order, and nothing else is bound. *)
Theorem dispatch_binds_arguments_in_order b this cb sig sd g l params args w :
  gpu_ready b w = true →
  ∃ w' sl ds,
    dispatch b this cb sig sd g l params args w = Ok (tt, w') ∧
    allocations (new_events w w') = [(sl, ds)] ∧
    next_handle w ≤ ds ∧
    objects w' !! ds = Some (ObjDescriptorSet sl) ∧
    updates (new_events w w') = imap (λ i a, (ds, i, a)) args ∧
    (∀ i, updates (new_events w w') !! i = (λ a, (ds, i, a)) <$> args !! i).
Proof.
  intros Hready.
  destruct (dispatch_spec b this cb sig sd g l params args w Hready)
    as ([] & w' & Hd & slo & pl & sm & pp & ds & c1 & c2 & c3 & c4 & Hpost).
  exists w', (handle slo), ds.
  pose proof (new_events_app _ _ _
    (post_log _ _ _ _ _ _ _ _ _ _ _ _ _ _ _ _ _ _ Hpost)) as Hev.
  destruct (post_set _ _ _ _ _ _ _ _ _ _ _ _ _ _ _ _ _ _ Hpost)
    as (_ & _ & Hge & Hobj).
  rewrite Hev, allocations_dispatch_events, updates_dispatch_events.
  split_and!; try done. intros i.
  exact (list_lookup_imap (λ i a, (ds, i, a)) args i).
Qed.

Lemma dispatch_binds_arguments_in_order_witness :
  ∃ w' sl ds,
    dispatch Release (Other 7) {| cb_handle := 100 |} hardsigmoid_signature
      hardsigmoid_descriptor (Build_WorkGroup 4 4 1) (Build_WorkGroup 4 4 4)
      [Byte.x04] [ImageObject 50; UniformObject 51] world0 = Ok (tt, w') ∧
    allocations (new_events world0 w') = [(sl, ds)] ∧
    next_handle world0 ≤ ds ∧
    objects w' !! ds = Some (ObjDescriptorSet sl) ∧
    updates (new_events world0 w')
      = imap (λ i a, (ds, i, a)) [ImageObject 50; UniformObject 51] ∧
    (∀ i, updates (new_events world0 w') !! i
          = (λ a, (ds, i, a)) <$> [ImageObject 50; UniformObject 51] !! i).
Proof.
  apply (dispatch_binds_arguments_in_order Release (Other 7)).
  reflexivity.
Defined.

(** C10.  A dispatch pushes the whole parameter block, [sizeof(params)]
    bytes at offset 0 for the compute stage, against the pipeline layout it
    resolved with that same size in the key; in a world that satisfies the
    invariant, that layout was created with a push-constant range of
    [sizeof(params)] bytes and the pipeline that is bound was created
    against that layout. *)
Theorem dispatch_push_constants_match_layout
    b this cb sig sd g l params args w :
  gpu_ready b w = true → Inv w →
  ∃ w' sl pl sm pp,
    dispatch b this cb sig sd g l params args w = Ok (tt, w') ∧
    pushes (new_events w w') =
      [(cb_handle cb, pl, VK_SHADER_STAGE_COMPUTE_BIT, 0, sizeof params,
        params)] ∧
    length params = sizeof params ∧
    resolved (new_events w w') =
      [ (ObjDescriptorSetLayout sig, sl);
        (ObjPipelineLayout sl (sizeof params), pl);
        (ObjShaderModule sd, sm);
        (ObjPipeline pl sm l, pp) ] ∧
    bound_pipelines (new_events w w') = [(cb_handle cb, pp)] ∧
    objects w' !! pl = Some (ObjPipelineLayout sl (sizeof params)) ∧
    objects w' !! pp = Some (ObjPipeline pl sm l).
Proof.
  intros Hready HI.
  destruct (dispatch_spec b this cb sig sd g l params args w Hready)
    as ([] & w' & Hd & slo & pl & sm & pp & ds & c1 & c2 & c3 & c4 & Hpost).
  destruct (dispatch_inv _ _ _ _ _ _ _ _ _ _ _ Hd) as (_ & _ & HI').
  specialize (HI' HI).
  exists w', (handle slo), pl, sm, pp.
  pose proof (new_events_app _ _ _
    (post_log _ _ _ _ _ _ _ _ _ _ _ _ _ _ _ _ _ _ Hpost)) as Hev.
  destruct (post_context _ _ _ _ _ _ _ _ _ _ _ _ _ _ _ _ _ _ Hpost)
    as (ctx' & Hc' & _ & Hpl & _ & Hpp & _).
  rewrite Hev, pushes_dispatch_events, resolved_dispatch_events,
    bound_pipelines_dispatch_events.
  split_and!; try done.
  - destruct (inv_pipeline_layout _ HI' ctx' Hc') as [Hin _].
    by destruct (Hin _ _ Hpl) as [_ Hobj].
  - destruct (inv_pipeline _ HI' ctx' Hc') as [Hin _].
    by destruct (Hin _ _ Hpp) as [_ Hobj].
Qed.

Lemma dispatch_push_constants_match_layout_witness :
  ∃ w' sl pl sm pp,
    dispatch Debug TheContext {| cb_handle := 100 |} hardsigmoid_signature
      hardsigmoid_descriptor (Build_WorkGroup 4 4 1) (Build_WorkGroup 4 4 4)
      [Byte.x04; Byte.x00; Byte.x00; Byte.x00] [ImageObject 50] world0
      = Ok (tt, w') ∧
    pushes (new_events world0 w') =
      [(100, pl, VK_SHADER_STAGE_COMPUTE_BIT, 0, 4,
        [Byte.x04; Byte.x00; Byte.x00; Byte.x00])] ∧
    length [Byte.x04; Byte.x00; Byte.x00; Byte.x00] = 4 ∧
    resolved (new_events world0 w') =
      [ (ObjDescriptorSetLayout hardsigmoid_signature, sl);
        (ObjPipelineLayout sl 4, pl);
        (ObjShaderModule hardsigmoid_descriptor, sm);
        (ObjPipeline pl sm (Build_WorkGroup 4 4 4), pp) ] ∧
    bound_pipelines (new_events world0 w') = [(100, pp)] ∧
    objects w' !! pl = Some (ObjPipelineLayout sl 4) ∧
    objects w' !! pp = Some (ObjPipeline pl sm (Build_WorkGroup 4 4 4)).
Proof.
  apply (dispatch_push_constants_match_layout Debug TheContext
           {| cb_handle := 100 |}).
  - reflexivity.
  - apply Inv_world0.
Defined.

(** C8.  A dispatch resolves everything through the process-wide Context:
    whatever Context it is invoked on, the result is the same, no other
    Context object changes, and the entries and the descriptor set it used
    are in the caches and the pool of the process-wide Context. *)
Theorem dispatch_uses_the_process_context
    b this cb sig sd g l params args w w' :
  dispatch b this cb sig sd g l params args w = Ok (tt, w') →
  heap w' = heap w ∧
  (∀ this', dispatch b this' cb sig sd g l params args w = Ok (tt, w')) ∧
  ∃ ctx' slo pl sm pp ds,
    the_context w' = Some ctx' ∧
    shader_layout_cache (shader_ ctx') !! sig = Some slo ∧
    pipeline_layout_cache (pipeline_ ctx') !! (handle slo, sizeof params)
      = Some pl ∧
    shader_cache (shader_ ctx') !! sd = Some sm ∧
    pipeline_cache (pipeline_ ctx') !! (pl, sm, l) = Some pp ∧
    ds ∈ descriptor_pool (descriptor_ ctx') ∧
    resolved (new_events w w') =
      [ (ObjDescriptorSetLayout sig, handle slo);
        (ObjPipelineLayout (handle slo) (sizeof params), pl);
        (ObjShaderModule sd, sm);
        (ObjPipeline pl sm l, pp) ] ∧
    allocations (new_events w w') = [(handle slo, ds)].
Proof.
  intros Hd.
  destruct (dispatch_inv _ _ _ _ _ _ _ _ _ _ _ Hd)
    as (_ & (slo & pl & sm & pp & ds & c1 & c2 & c3 & c4 & Hpost) & _).
  pose proof (new_events_app _ _ _
    (post_log _ _ _ _ _ _ _ _ _ _ _ _ _ _ _ _ _ _ Hpost)) as Hev.
  destruct (post_context _ _ _ _ _ _ _ _ _ _ _ _ _ _ _ _ _ _ Hpost)
    as (ctx' & Hc' & Hsl & Hpl & Hsm & Hpp & Hds & _).
  split_and!.
  - by destruct Hpost.
  - intros this'. exact Hd.
  - exists ctx', slo, pl, sm, pp, ds.
    rewrite Hev, resolved_dispatch_events, allocations_dispatch_events.
    by split_and!.
Qed.

Lemma dispatch_uses_the_process_context_witness :
  ∃ w',
    dispatch Debug (Other 7) {| cb_handle := 100 |} hardsigmoid_signature
      hardsigmoid_descriptor (Build_WorkGroup 4 4 1) (Build_WorkGroup 4 4 4)
      [Byte.x04] [ImageObject 50] world_with_other = Ok (tt, w') ∧
    heap w' = heap world_with_other ∧
    is_Some (the_context w').
Proof.
  destruct (dispatch Debug (Other 7) {| cb_handle := 100 |}
              hardsigmoid_signature hardsigmoid_descriptor
              (Build_WorkGroup 4 4 1) (Build_WorkGroup 4 4 4)
              [Byte.x04] [ImageObject 50] world_with_other)
    as [[[] w']|e] eqn:Hd.
  - destruct (dispatch_uses_the_process_context _ _ _ _ _ _ _ _ _ _ _ Hd)
      as (Hheap & _ & ctx' & _ & _ & _ & _ & _ & Hc & _).
    exists w'. split_and!; [done|exact Hheap|by eexists].
  - vm_compute in Hd. discriminate Hd.
Defined.

(** C1.  Two dispatches with the same signature, kernel descriptor, local
    work group size and parameter-block size, with any calls in between,
    resolve the same four objects (descriptor-set layout, pipeline layout,
    shader module, pipeline) and bind the same pipeline; the later one
    creates none of them.  In the worlds the runtime reaches, no two cached
    objects were created from the same key. *)
Theorem equal_keys_identical_objects
    b sig sd l this1 cb1 g1 params1 args1 this2 cb2 g2 params2 args2
    mid w0 w1 w2 w3 :
  Inv w0 →
  sizeof params1 = sizeof params2 →
  dispatch b this1 cb1 sig sd g1 l params1 args1 w0 = Ok (tt, w1) →
  run b mid w1 = Ok (tt, w2) →
  dispatch b this2 cb2 sig sd g2 l params2 args2 w2 = Ok (tt, w3) →
  ∃ sl pl sm pp,
    resolved (new_events w0 w1) =
      [ (ObjDescriptorSetLayout sig, sl);
        (ObjPipelineLayout sl (sizeof params1), pl);
        (ObjShaderModule sd, sm);
        (ObjPipeline pl sm l, pp) ] ∧
    resolved (new_events w2 w3) = resolved (new_events w0 w1) ∧
    bound_pipelines (new_events w0 w1) = [(cb_handle cb1, pp)] ∧
    bound_pipelines (new_events w2 w3) = [(cb_handle cb2, pp)] ∧
    Forall (λ e, is_creation e = false) (new_events w2 w3) ∧
    (∀ h1 h2 o, cached o = true →
       objects w3 !! h1 = Some o → objects w3 !! h2 = Some o → h1 = h2).
Proof.
  unfold sizeof. intros HI0 Hsize H1 Hmid H2.
  destruct (dispatch_inv _ _ _ _ _ _ _ _ _ _ _ H1)
    as (_ & (slo & pl & sm & pp & ds & c1 & c2 & c3 & c4 & Hpost1) & HI1).
  destruct (run_step _ _ _ _ Hmid) as [Hgrow HI2].
  destruct (dispatch_inv _ _ _ _ _ _ _ _ _ _ _ H2)
    as (_ & (slo' & pl' & sm' & pp' & ds' & c1' & c2' & c3' & c4' & Hpost2)
        & HI3).
  pose proof (new_events_app _ _ _
    (post_log _ _ _ _ _ _ _ _ _ _ _ _ _ _ _ _ _ _ Hpost1)) as Hev1.
  pose proof (new_events_app _ _ _
    (post_log _ _ _ _ _ _ _ _ _ _ _ _ _ _ _ _ _ _ Hpost2)) as Hev2.
  destruct (post_context _ _ _ _ _ _ _ _ _ _ _ _ _ _ _ _ _ _ Hpost1)
    as (ctx1 & Hc1 & Hsl & Hpl & Hsm & Hpp & _).
  destruct (Hgrow ctx1 Hc1) as (ctx2 & Hc2 & Hle1 & Hle2 & Hle3 & Hle4).
  destruct (post_hit _ _ _ _ _ _ _ _ _ _ _ _ _ _ _ _ _ _ Hpost2 ctx2 Hc2)
    as (Hhit1 & Hhit2 & Hhit3 & Hhit4).
  destruct (Hhit1 slo) as [-> ->]; [by eapply lookup_weaken|].
  rewrite <- Hsize in *.
  destruct (Hhit2 pl) as [-> ->]; [by eapply lookup_weaken|].
  destruct (Hhit3 sm) as [-> ->]; [by eapply lookup_weaken|].
  destruct (Hhit4 pp) as [-> ->]; [by eapply lookup_weaken|].
  exists (handle slo), pl, sm, pp.
  rewrite Hev1, Hev2, !resolved_dispatch_events,
    !bound_pipelines_dispatch_events, Hsize.
  split_and!; try done.
  - apply creations_dispatch_events.
  - intros h1 h2 o. apply Inv_no_duplicates. auto.
Qed.

Lemma equal_keys_identical_objects_witness :
  ∃ w1 w3 pp,
    dispatch Debug TheContext {| cb_handle := 100 |} hardsigmoid_signature
      hardsigmoid_descriptor (Build_WorkGroup 4 4 1) (Build_WorkGroup 4 4 4)
      [Byte.x04] [ImageObject 50; UniformObject 51] world0 = Ok (tt, w1) ∧
    dispatch Debug (Other 7) {| cb_handle := 101 |} hardsigmoid_signature
      hardsigmoid_descriptor (Build_WorkGroup 8 8 1) (Build_WorkGroup 4 4 4)
      [Byte.x08] [ImageObject 60; UniformObject 61]
      (logged [EvSubmit 100] w1) = Ok (tt, w3) ∧
    bound_pipelines (new_events world0 w1) = [(100, pp)] ∧
    bound_pipelines (new_events (logged [EvSubmit 100] w1) w3) = [(101, pp)].
Proof.
  destruct (dispatch_spec Debug TheContext {| cb_handle := 100 |}
              hardsigmoid_signature hardsigmoid_descriptor
              (Build_WorkGroup 4 4 1) (Build_WorkGroup 4 4 4)
              [Byte.x04] [ImageObject 50; UniformObject 51] world0 eq_refl)
    as ([] & w1 & H1 & ? & ? & ? & ? & ? & ? & ? & ? & ? & Hpost1).
  pose proof (post_ready _ _ _ _ _ _ _ _ _ _ _ _ _ _ _ _ _ _ Hpost1
                Debug eq_refl) as Hready.
  destruct (dispatch_spec Debug (Other 7) {| cb_handle := 101 |}
              hardsigmoid_signature hardsigmoid_descriptor
              (Build_WorkGroup 8 8 1) (Build_WorkGroup 4 4 4)
              [Byte.x08] [ImageObject 60; UniformObject 61]
              (logged [EvSubmit 100] w1) Hready)
    as ([] & w3 & H2 & _).
  destruct (equal_keys_identical_objects Debug hardsigmoid_signature
              hardsigmoid_descriptor (Build_WorkGroup 4 4 4)
              TheContext {| cb_handle := 100 |} (Build_WorkGroup 4 4 1)
              [Byte.x04] [ImageObject 50; UniformObject 51]
              (Other 7) {| cb_handle := 101 |} (Build_WorkGroup 8 8 1)
              [Byte.x08] [ImageObject 60; UniformObject 61]
              [CallSubmit {| cb_handle := 100 |}] world0 w1
              (logged [EvSubmit 100] w1) w3
              Inv_world0 eq_refl H1 eq_refl H2)
    as (sl & pl & sm & pp & _ & _ & Hb1 & Hb2 & _).
  exists w1, w3, pp.
  split_and!; [exact H1|exact H2|exact Hb1|exact Hb2].
Defined.

(** C6.  On a Context whose device (or queue) is unset, the accessor fails
    the assertion in a debug build; in a release build the check is absent
    and the accessor hands out the null handle.  [gpu()], which every
    dispatch calls, inherits both behaviours.  On an initialised Context the
    accessors return the handles in either build. *)
Theorem accessors_assert_in_debug_only this w ctx :
  load this w = Ok (ctx, w) →
  (device_ ctx = VK_NULL_HANDLE →
     device Debug this w = Fatal AssertionFailed ∧
     device Release this w = Ok (VK_NULL_HANDLE, w)) ∧
  (queue_ ctx = VK_NULL_HANDLE →
     queue Debug this w = Fatal AssertionFailed ∧
     queue Release this w = Ok (VK_NULL_HANDLE, w)) ∧
  (initialized ctx = false → gpu Debug this w = Fatal AssertionFailed) ∧
  gpu Release this w =
    Ok ({| gpu_adapter := adapter_ ctx; gpu_device := device_ ctx;
           gpu_queue := queue_ ctx |}, w) ∧
  (initialized ctx = true →
     ∀ b, device b this w = Ok (device_ ctx, w) ∧
          queue b this w = Ok (queue_ ctx, w)).
Proof.
  intros Hl. unfold gpu, device, queue, initialized, mbind, M_bind.
  rewrite !Hl. cbn. split_and!.
  - intros ->. by rewrite bool_decide_false by (by intros []).
  - intros ->. by rewrite bool_decide_false by (by intros []).
  - intros [Hd|Hq]%andb_false_iff.
    + by rewrite Hd.
    + destruct (bool_decide (device_ ctx ≠ _)); cbn; [|done].
      rewrite Hl. cbn. by rewrite Hq.
  - by rewrite Hl.
  - intros [Hd Hq]%andb_true_iff b. rewrite Hd, Hq. by destruct b.
Qed.

Lemma accessors_assert_in_debug_only_witness :
  device Debug (Other 3)
    {| next_handle := 1; objects := ∅; the_context := None;
       heap := {[ 3 := unset_context ]}; log := [] |}
  = Fatal AssertionFailed.
Proof.
  apply (accessors_assert_in_debug_only (Other 3) _ unset_context);
    reflexivity.
Defined.




End ContextClaims.

(** * Further properties of the kernel *)

Section HardsigmoidFurther.
Import Hardsigmoid.

Section Generic.
Context {F : Type} `{Precision F}.
Implicit Types (img : image3D F) (size : ivec4) (gid : uvec3).

Lemma clamp_bounds (x lo hi : F) :
  flt lo lo = false → flt hi hi = false → flt hi lo = false →
  flt (clamp x lo hi) lo = false ∧ flt hi (clamp x lo hi) = false.
Proof.
  intros Hlo Hhi Hhl. unfold clamp, fmin, fmax.
  destruct (flt x lo) eqn:Hx.
  - rewrite Hhl. by rewrite Hlo.
  - destruct (flt hi x) eqn:Hm; by rewrite ?Hhl, ?Hhi, ?Hx, ?Hm.
Qed.

Lemma main_comm img size g1 g2 :
  (main img size g1 ≫= λ i, main i size g2) =
  (main img size g2 ≫= λ i, main i size g1).
Proof.
  destruct (in_extent (ivec3_of_uvec3 g1) size) eqn:He1.
  2:{ rewrite (main_outside _ _ g1) by done. cbn.
      destruct (main img size g2) as [i|]; [|done]. cbn.
      by rewrite main_outside. }
  destruct (in_extent (ivec3_of_uvec3 g2) size) eqn:He2.
  2:{ rewrite (main_outside _ _ g2) by done. cbn.
      destruct (main img size g1) as [i|]; [|done]. cbn.
      by rewrite main_outside. }
  set (p1 := ivec3_of_uvec3 g1) in *. set (p2 := ivec3_of_uvec3 g2) in *.
  assert (Hnone : ∀ g, in_extent (ivec3_of_uvec3 g) size = true →
                       ∀ i, i !! ivec3_of_uvec3 g = None → main i size g = None).
  { intros g He i Hi. destruct (main i size g) as [i'|] eqn:Hm; [|done].
    apply main_inv in Hm as [[? _]|(v & _ & ? & _)]; congruence. }
  destruct (img !! p1) as [v1|] eqn:H1; destruct (img !! p2) as [v2|] eqn:H2.
  - rewrite (main_inside _ _ g1 v1), (main_inside _ _ g2 v2) by done. cbn.
    fold p1 p2. destruct (decide (p1 = p2)) as [Heq|Hne].
    + rewrite (main_inside _ _ g2 (vmap hardsigmoid v1)), 
        (main_inside _ _ g1 (vmap hardsigmoid v2)); fold p1 p2;
        rewrite ?Heq, ?lookup_insert_eq; try done.
      rewrite Heq in H1. congruence.
    + rewrite (main_inside _ _ g2 v2), (main_inside _ _ g1 v1); fold p1 p2;
        rewrite ?lookup_insert_ne; try done.
      f_equal. by apply insert_insert_ne.
  - rewrite (main_inside _ _ g1 v1), (Hnone g2 He2 img H2) by done. cbn.
    apply Hnone; [done|]. fold p1 p2. rewrite lookup_insert_ne; [done|].
    intros Heq. rewrite Heq in H1. congruence.
  - rewrite (main_inside _ _ g2 v2), (Hnone g1 He1 img H1) by done. cbn.
    symmetry. apply Hnone; [done|]. fold p1 p2.
    rewrite lookup_insert_ne; [done|]. intros Heq. rewrite Heq in H2.
    congruence.
  - by rewrite (Hnone g1 He1 img H1), (Hnone g2 He2 img H2).
Qed.

Lemma invoke_all_cons gid ids img size :
  invoke_all (gid :: ids) img size =
  main img size gid ≫= λ i, invoke_all ids i size.
Proof. done. Qed.

(** X1.  The result of a dispatch does not depend on the order in which the
    invocations run: any two orders of the same invocation ids give the same
    image, or are both undefined. *)
Theorem invoke_all_order_independent ids ids' :
  ids ≡ₚ ids' →
  ∀ img size, invoke_all ids img size = invoke_all ids' img size.
Proof.
  induction 1 as [|g l l' _ IH|g1 g2 l|l1 l2 l3 _ IH1 _ IH2]; intros img size.
  - done.
  - rewrite !invoke_all_cons. destruct (main img size g); [|done]. cbn.
    apply IH.
  - rewrite !invoke_all_cons.
    transitivity ((main img size g1 ≫= λ i, main i size g2)
                    ≫= λ i, invoke_all l i size).
    + destruct (main img size g2) as [i|] eqn:H2.
      * pose proof (main_comm img size g1 g2) as Hc. rewrite H2 in Hc.
        cbn in Hc. rewrite Hc. done.
      * pose proof (main_comm img size g1 g2) as Hc. rewrite H2 in Hc.
        cbn in Hc. rewrite Hc. done.
    + by destruct (main img size g1).
  - by rewrite IH1, IH2.
Qed.

(** X2.  When the image has a texel at every position of the extents and
    no invocation id reaches the sign bit, no invocation reads or writes
    outside the image: the dispatch is defined, and the image it leaves has
    exactly the texels it had. *)
Theorem invoke_all_stays_inside ids img size :
  covers img size →
  Forall below_sign_bit ids →
  ∃ img', invoke_all ids img size = Some img' ∧ dom img' = dom img.
Proof.
  intros Hcov Hids.
  destruct (invoke_all_total ids img size) as [img' Hrun].
  - intros g Hg He. apply Hcov.
    rewrite Forall_forall in Hids. destruct (Hids g Hg) as (Hx & Hy & Hz).
    apply in_extent_spec in He. unfold ivec3_of_uvec3 in *. cbn in *.
    rewrite !int_of_uint_small in * by done. lia.
  - exists img'. split; [done|]. apply set_eq. intros p.
    rewrite !elem_of_dom. by eapply invoke_all_dom.
Qed.

(** X5.  The guard bounds a position from above only.  An invocation id
    with the sign bit set in x converts to a negative x, passes the guard
    whatever the extents, and accesses the image at that negative
    coordinate: undefined when the image has no texel there. *)
Theorem guard_has_no_lower_bound img size gid :
  2 ^ 31 ≤ ux gid < 2 ^ 32 →
  0 ≤ uy gid < 2 ^ 31 → 0 ≤ uz gid < 2 ^ 31 →
  0 ≤ jx size → uy gid < jy size → uz gid < jz size →
  ix (ivec3_of_uvec3 gid) = ux gid - 2 ^ 32 ∧
  in_extent (ivec3_of_uvec3 gid) size = true ∧
  ((∀ p, is_Some (img !! p) → 0 ≤ ix p) → main img size gid = None).
Proof.
  intros Hx Hy Hz Hsx Hsy Hsz.
  assert (Hix : ix (ivec3_of_uvec3 gid) = ux gid - 2 ^ 32).
  { cbn. unfold int_of_uint. rewrite Z.mod_small by lia.
    destruct (Z.ltb_spec (ux gid) (2 ^ 31)); [lia|done]. }
  assert (He : in_extent (ivec3_of_uvec3 gid) size = true).
  { apply in_extent_spec. rewrite Hix. cbn.
    rewrite !int_of_uint_small by done. lia. }
  split_and!; [done|done|]. intros Himg.
  destruct (main img size gid) as [img'|] eqn:Hm; [|done].
  apply main_inv in Hm as [[? _]|(v & _ & Hv & _)]; [congruence|].
  assert (0 ≤ ix (ivec3_of_uvec3 gid)) by (apply Himg; by eexists). lia.
Qed.

End Generic.

Lemma invoke_all_order_independent_witness :
  invoke_all [UVec3 0 0 0; UVec3 1 0 0] (filled 2 1 1 (splat 3%Q))
    (IVec4 2 1 1 0)
  = invoke_all [UVec3 1 0 0; UVec3 0 0 0] (filled 2 1 1 (splat 3%Q))
      (IVec4 2 1 1 0).
Proof.
  apply invoke_all_order_independent. apply perm_swap.
Defined.

Lemma invoke_all_stays_inside_witness :
  ∃ img', invoke_all (grid 2 2 1) (filled 2 1 1 (splat 3%Q)) (IVec4 2 1 1 0)
          = Some img' ∧
          dom img' = dom (filled 2 1 1 (splat 3%Q)).
Proof.
  apply invoke_all_stays_inside.
  - intros p Hp. rewrite filled_lookup. cbn in Hp.
    rewrite decide_True by done. by eexists.
  - repeat constructor; cbn; lia.
Defined.

Lemma guard_has_no_lower_bound_witness :
  main (filled 1 1 1 (splat 3%Q)) (IVec4 1 1 1 0) (UVec3 (2 ^ 31) 0 0) = None.
Proof.
  apply (guard_has_no_lower_bound (filled 1 1 1 (splat 3%Q)) (IVec4 1 1 1 0)
           (UVec3 (2 ^ 31) 0 0)); cbn; try lia.
  intros p [v Hv]. rewrite filled_lookup in Hv.
  case_decide; [lia|discriminate].
Defined.

(** X3.  Whatever value a texel held, infinities and NaN included, no
    component that the kernel stores is below 0 or above 1, in binary32
    arithmetic and in exact arithmetic. *)
Theorem hardsigmoid_output_saturates :
  (∀ (img img' : image3D spec_float) size gid v',
     main img size gid = Some img' →
     in_extent (ivec3_of_uvec3 gid) size = true →
     img' !! ivec3_of_uvec3 gid = Some v' →
     vall (λ c, SFltb c (b32_of_Z 0) = false ∧ SFltb (b32_of_Z 1) c = false)
          v')
  ∧ (∀ (img img' : image3D Q) size gid v',
       main img size gid = Some img' →
       in_extent (ivec3_of_uvec3 gid) size = true →
       img' !! ivec3_of_uvec3 gid = Some v' →
       vall (λ c, (0 <= c)%Q ∧ (c <= 1)%Q) v').
Proof.
  split.
  - intros img img' size gid v' Hm He Hv'.
    apply main_inv in Hm as [[? _]|(v & _ & Hv & ->)]; [congruence|].
    rewrite lookup_insert_eq in Hv'. injection Hv' as <-.
    assert (Hb : ∀ x : spec_float,
      SFltb (hardsigmoid x) (b32_of_Z 0) = false ∧
      SFltb (b32_of_Z 1) (hardsigmoid x) = false).
    { intros x.
      exact (clamp_bounds (F := spec_float)
               (fadd (fdiv x (flit 6.0)) (flit 0.5)) (flit 0.0) (flit 1.0)
               eq_refl eq_refl eq_refl). }
    repeat split; apply Hb.
  - intros img img' size gid v' Hm He Hv'.
    apply main_inv in Hm as [[? _]|(v & _ & Hv & ->)]; [congruence|].
    rewrite lookup_insert_eq in Hv'. injection Hv' as <-.
    assert (Hb : ∀ x : Q, (0 <= hardsigmoid x)%Q ∧ (hardsigmoid x <= 1)%Q).
    { intros x.
      destruct (clamp_bounds (F := Q)
                  (fadd (fdiv x (flit 6.0)) (flit 0.5)) (flit 0.0) (flit 1.0))
        as [Hlo Hhi]; try by vm_compute.
      fold (hardsigmoid x) in Hlo, Hhi. cbn [flt exact_precision] in Hlo, Hhi.
      apply negb_false_iff, Qle_bool_iff in Hlo, Hhi.
      cbn [flit exact_precision] in Hlo, Hhi.
      rewrite Qred_correct in Hlo, Hhi. split; lra. }
    repeat split; apply Hb.
Qed.

Lemma hardsigmoid_output_saturates_witness :
  vall (λ c, SFltb c (b32_of_Z 0) = false ∧ SFltb (b32_of_Z 1) c = false)
       (vmap hardsigmoid (splat (b32_of_Z 9))).
Proof.
  apply (proj1 hardsigmoid_output_saturates
           (filled 1 1 1 (splat (b32_of_Z 9)))
           (<[IVec3 0 0 0 := vmap hardsigmoid (splat (b32_of_Z 9))]>
              (filled 1 1 1 (splat (b32_of_Z 9))))
           (IVec4 1 1 1 0) (UVec3 0 0 0));
    reflexivity.
Defined.

(** X4.  In exact arithmetic the kernel's function is 0 up to -3, 1 from 3
    on, and x/6 + 1/2 in between. *)
Theorem hardsigmoid_exact_piecewise (x : Q) :
  ((x <= -3)%Q → (hardsigmoid x == 0)%Q) ∧
  ((3 <= x)%Q → (hardsigmoid x == 1)%Q) ∧
  ((-3 <= x)%Q → (x <= 3)%Q → (hardsigmoid x == x / 6 + (1 # 2))%Q).
Proof.
  unfold hardsigmoid, clamp, fmin, fmax.
  cbn [flt fdiv fadd flit exact_precision].
  set (y := Qred (Qred (x / Qred 6.0) + Qred 0.5)).
  assert (Hy : (y == x / 6 + (1 # 2))%Q).
  { unfold y. rewrite !Qred_correct. field. }
  assert (Hy' : (y == x * (1 # 6) + (1 # 2))%Q) by (rewrite Hy; field).
  assert (H0 : (Qred 0.0 == 0)%Q) by (by rewrite Qred_correct).
  assert (H1 : (Qred 1.0 == 1)%Q) by (by rewrite Qred_correct).
  assert (Hlo : (Qred 0.0 <= y)%Q ∨ ¬ (Qred 0.0 <= y)%Q).
  { destruct (Qle_bool (Qred 0.0) y) eqn:E; [left|right];
      rewrite <- Qle_bool_iff; congruence. }
  assert (Hhi : (y <= Qred 1.0)%Q ∨ ¬ (y <= Qred 1.0)%Q).
  { destruct (Qle_bool y (Qred 1.0)) eqn:E; [left|right];
      rewrite <- Qle_bool_iff; congruence. }
  destruct (Qle_bool (Qred 0.0) y) eqn:Elo; cbn [negb];
    [|replace (Qle_bool (Qred 0.0) (Qred 1.0)) with true by (by vm_compute)];
    [destruct (Qle_bool y (Qred 1.0)) eqn:Ehi|]; cbn [negb];
    (destruct Hlo as [Hlo|Hlo];
       [|try (apply Qle_bool_iff in Elo; contradiction)]);
    (destruct Hhi as [Hhi|Hhi];
       [|try (apply Qle_bool_iff in Ehi; contradiction)]);
    split_and!; intros;
    solve [exact H0 | exact H1 | exact Hy | exfalso; lra
          | apply Qle_antisym; lra
          | exfalso; rewrite <- Qle_bool_iff in *; congruence].
Qed.

Lemma hardsigmoid_exact_piecewise_witness :
  (hardsigmoid (3 # 2) == (3 # 2) / 6 + (1 # 2))%Q.
Proof.
  apply (hardsigmoid_exact_piecewise (3 # 2)); by vm_compute.
Defined.

End HardsigmoidFurther.

(** * Further properties of the Context *)

Section ContextFurther.
Import Vulkan.
Local Open Scope nat_scope.


Lemma gpu_Ok b this w g w' :
  gpu b this w = Ok (g, w') →
  w' = w ∧ ∃ ctx, load this w = Ok (ctx, w) ∧
    g = {| gpu_adapter := adapter_ ctx; gpu_device := device_ ctx;
           gpu_queue := queue_ ctx |} ∧
    (b = Debug → device_ ctx ≠ VK_NULL_HANDLE ∧ queue_ ctx ≠ VK_NULL_HANDLE).
Proof.
  unfold gpu. intros Hg.
  apply bind_Ok in Hg as (ctx & w1 & Hl & Hg).
  pose proof (load_Ok _ _ _ _ Hl) as [-> Hl'].
  apply bind_Ok in Hg as (d & w2 & Hd & Hg).
  apply device_Ok in Hd as (-> & ctx1 & Hl1 & -> & Hd1).
  apply bind_Ok in Hg as (q & w3 & Hq & Hg).
  apply queue_Ok in Hq as (-> & ctx2 & Hl2 & -> & Hq2).
  injection Hg as <- <-.
  rewrite Hl in Hl1, Hl2. injection Hl1 as <-. injection Hl2 as <-.
  split; [done|]. exists ctx. split_and!; auto.
Qed.




(** X7.  [gpu()] changes nothing and hands out the adapter, the device and
    the queue of the Context it is called on; in a debug build neither
    handle of a trio it hands out is null. *)
Theorem gpu_hands_out_the_members b this w g w' :
  gpu b this w = Ok (g, w') →
  w' = w ∧
  ∃ ctx, load this w = Ok (ctx, w) ∧
    gpu_adapter g = adapter_ ctx ∧ gpu_device g = device_ ctx ∧
    gpu_queue g = queue_ ctx ∧
    (b = Debug →
       gpu_device g ≠ VK_NULL_HANDLE ∧ gpu_queue g ≠ VK_NULL_HANDLE).
Proof.
  intros (-> & ctx & Hl & -> & Hnn)%gpu_Ok. split; [done|].
  exists ctx. by split_and!.
Qed.

Lemma gpu_hands_out_the_members_witness :
  world_with_other = world_with_other ∧
  ∃ ctx, load (Other 7) world_with_other = Ok (ctx, world_with_other) ∧
    physical_device (adapter_ (new_context world0))
      = physical_device (adapter_ ctx) ∧
    2 = device_ ctx ∧ 3 = queue_ ctx ∧
    (Debug = Debug → 2 ≠ VK_NULL_HANDLE ∧ 3 ≠ VK_NULL_HANDLE).
Proof.
  destruct (gpu_hands_out_the_members Debug (Other 7) world_with_other
              {| gpu_adapter := adapter_ (new_context world0);
                 gpu_device := 2; gpu_queue := 3 |}
              world_with_other eq_refl)
    as (_ & ctx & Hl & Ha & Hd & Hq & Hnn).
  split; [done|]. exists ctx. cbn in *. split_and!; try done.
  by rewrite <- Ha.
Defined.

(** ** Native objects are never lost *)

Lemma extends_refl w : Inv w → extends w w.
Proof. by split. Qed.

Lemma extends_trans w1 w2 w3 : extends w1 w2 → extends w2 w3 → extends w1 w3.
Proof. intros [_ H12] [HI H23]. split; [done|]. by etrans. Qed.

Lemma extends_logged evs w : Inv w → extends w (logged evs w).
Proof. intros HI. split; [by apply Inv_logged|done]. Qed.

Lemma insert_fresh_subseteq w o :
  Inv w → objects w ⊆ <[next_handle w := o]> (objects w).
Proof.
  intros HI. apply insert_subseteq.
  destruct (objects w !! next_handle w) as [o'|] eqn:Ho; [|done].
  apply (inv_fresh w HI) in Ho. lia.
Qed.

Lemma new_objects_subseteq w : Inv w → objects w ⊆ new_objects w.
Proof.
  intros HI. unfold new_objects.
  assert (Hnone : ∀ h, next_handle w ≤ h → objects w !! h = None).
  { intros h Hh. destruct (objects w !! h) as [o'|] eqn:Ho; [|done].
    apply (inv_fresh w HI) in Ho. lia. }
  etrans; [|apply insert_subseteq].
  - etrans; [|apply insert_subseteq].
    + apply insert_subseteq. apply Hnone. lia.
    + rewrite lookup_insert_ne by lia. apply Hnone. lia.
  - rewrite !lookup_insert_ne by lia. apply Hnone. lia.
Qed.

Lemma extends_started w : Inv w → extends w (started w).
Proof.
  intros HI. split; [by apply Inv_started|].
  unfold started. destruct (the_context w); [done|].
  by apply new_objects_subseteq.
Qed.

Lemma extends_allocated layout ctx w :
  Inv w → the_context w = Some ctx → extends w (allocated layout ctx w).
Proof.
  intros HI Hc. split; [by apply Inv_allocated|].
  by apply insert_fresh_subseteq.
Qed.

Lemma retrieved_subseteq {K V} `{Countable K} (c : Cache K V) k v created
    ctx w :
  Inv w → objects w ⊆ objects (retrieved c k v created ctx w).
Proof.
  intros HI. destruct created; cbn; [|done]. by apply insert_fresh_subseteq.
Qed.

Lemma dispatch_extends b this cb sig sd g l params args w :
  gpu_ready b w = true → Inv w →
  wp (dispatch b this cb sig sd g l params args) w (λ _ w', extends w w').
Proof.
  intros Hready HI. apply wp_dispatch; [done|].
  intros ctx0 slo c1 pl c2 sm c3 pp c4 Hctx0 w1 ctx1 H1 k2 w2 ctx2 H2
    w2' w3 ctx3 H3 k4 w4 ctx4 H4 w5.
  pose proof (extends_started w HI) as E0.
  assert (E1 : extends (started w) w1).
  { split; [by apply Inv_retrieved_shader_layout; [apply E0|..]|].
    apply retrieved_subseteq, E0. }
  assert (E2 : extends w1 w2).
  { split; [by apply Inv_retrieved_pipeline_layout; [apply E1|..]|].
    apply retrieved_subseteq, E1. }
  assert (E2' : extends w2 w2') by apply extends_logged, E2.
  assert (E3 : extends w2' w3).
  { split; [by apply Inv_retrieved_shader_module; [apply E2'|..]|].
    apply retrieved_subseteq, E2'. }
  assert (E4 : extends w3 w4).
  { split; [by apply Inv_retrieved_pipeline; [apply E3|..]|].
    apply retrieved_subseteq, E3. }
  assert (E5 : extends w4 w5).
  { eapply extends_trans; [apply extends_logged, E4|].
    apply extends_allocated; [apply Inv_logged, E4|done]. }
  repeat (eapply extends_trans; [eassumption|]).
  apply extends_logged, E5.
Qed.

Lemma call_extends b c w w' :
  Inv w → call b c w = Ok (tt, w') → extends w w'.
Proof.
  intros HI Hc. pose proof (call_step _ _ _ _ Hc) as [_ HI'].
  split; [auto|].
  destruct c as [this cb sig sd g l params args|this|this|cb|a];
    cbn [call] in Hc.
  - pose proof (dispatch_Ok_ready _ _ _ _ _ _ _ _ _ _ _ Hc) as Hr.
    by destruct (wp_elim _ _ _ _ _
                   (dispatch_extends b this cb sig sd g l params args w Hr HI)
                   Hc).
  - unfold flush in Hc. apply bind_Ok in Hc as (q & w1 & Hq & He).
    apply queue_Ok in Hq as (-> & _). by injection He as <-.
  - unfold pool_purge in Hc.
    apply bind_Ok in Hc as (ctx & w1 & Hl & Hp).
    apply bind_Ok in Hp as ([] & w2 & Hs & He).
    injection He as <-. injection Hs as <-.
    apply load_Ok in Hl as [-> _]. by destruct this.
  - by injection Hc as <-.
  - injection Hc as <-. cbn. by apply new_objects_subseteq.
Qed.

Lemma run_extends b cs : ∀ w w',
  Inv w → run b cs w = Ok (tt, w') → extends w w'.
Proof.
  induction cs as [|c cs IH]; intros w w' HI Hrun.
  - injection Hrun as <-. apply extends_refl. exact HI.
  - cbn [run] in Hrun. apply bind_Ok in Hrun as ([] & w1 & Hc & Hrun).
    pose proof (call_extends _ _ _ _ HI Hc) as E1.
    apply (extends_trans w w1 w'); [exact E1|].
    apply IH; [apply E1|exact Hrun].
Qed.

(** What a dispatch from an invariant world leaves in the driver: each of
    the four objects it resolved is registered with its key. *)
Lemma dispatch_objects w w' cb sig sd g l params args slo pl sm pp ds
    c1 c2 c3 c4 :
  Inv w' →
  dispatch_post w w' cb sig sd g l params args slo pl sm pp ds c1 c2 c3 c4 →
  objects w' !! handle slo = Some (ObjDescriptorSetLayout sig) ∧
  objects w' !! pl = Some (ObjPipelineLayout (handle slo) (length params)) ∧
  objects w' !! sm = Some (ObjShaderModule sd) ∧
  objects w' !! pp = Some (ObjPipeline pl sm l).
Proof.
  intros HI Hpost.
  destruct (post_context _ _ _ _ _ _ _ _ _ _ _ _ _ _ _ _ _ _ Hpost)
    as (ctx' & Hc' & Hsl & Hpl & Hsm & Hpp & _).
  split_and!.
  - destruct (inv_layout _ HI ctx' Hc') as [Hin _].
    by destruct (Hin _ _ Hsl) as [_ Hobj].
  - destruct (inv_pipeline_layout _ HI ctx' Hc') as [Hin _].
    by destruct (Hin _ _ Hpl) as [_ Hobj].
  - destruct (inv_module _ HI ctx' Hc') as [Hin _].
    by destruct (Hin _ _ Hsm) as [_ Hobj].
  - destruct (inv_pipeline _ HI ctx' Hc') as [Hin _].
    by destruct (Hin _ _ Hpp) as [_ Hobj].
Qed.



(** X9.  Pipelines that two dispatches bind are the same object only if
    the dispatches agree on the signature, the kernel descriptor, the local
    work group size and the size of the parameter block: a difference in
    any of them never reuses a pipeline. *)
Theorem same_pipeline_same_keys
    b this1 cb1 sig1 sd1 g1 l1 params1 args1
    this2 cb2 sig2 sd2 g2 l2 params2 args2 mid w0 w1 w2 w3 pp :
  Inv w0 →
  dispatch b this1 cb1 sig1 sd1 g1 l1 params1 args1 w0 = Ok (tt, w1) →
  run b mid w1 = Ok (tt, w2) →
  dispatch b this2 cb2 sig2 sd2 g2 l2 params2 args2 w2 = Ok (tt, w3) →
  bound_pipelines (new_events w0 w1) = [(cb_handle cb1, pp)] →
  bound_pipelines (new_events w2 w3) = [(cb_handle cb2, pp)] →
  sig1 = sig2 ∧ sd1 = sd2 ∧ l1 = l2 ∧ sizeof params1 = sizeof params2.
Proof.
  unfold sizeof. intros HI0 H1 Hmid H2 Hb1 Hb2.
  destruct (dispatch_inv _ _ _ _ _ _ _ _ _ _ _ H1)
    as (_ & (slo & pl & sm & pp1 & ds & c1 & c2 & c3 & c4 & Hpost1) & HI1).
  specialize (HI1 HI0).
  destruct (run_extends _ _ _ _ HI1 Hmid) as [HI2 Hsub12].
  destruct (dispatch_inv _ _ _ _ _ _ _ _ _ _ _ H2)
    as (Hr2 & (slo' & pl' & sm' & pp2 & ds' & c1' & c2' & c3' & c4' & Hpost2)
        & HI3).
  specialize (HI3 HI2).
  destruct (wp_elim _ _ _ _ _
              (dispatch_extends b this2 cb2 sig2 sd2 g2 l2 params2 args2 w2
                 Hr2 HI2) H2) as [_ Hsub23].
  rewrite (new_events_app _ _ _
    (post_log _ _ _ _ _ _ _ _ _ _ _ _ _ _ _ _ _ _ Hpost1)),
    bound_pipelines_dispatch_events in Hb1.
  rewrite (new_events_app _ _ _
    (post_log _ _ _ _ _ _ _ _ _ _ _ _ _ _ _ _ _ _ Hpost2)),
    bound_pipelines_dispatch_events in Hb2.
  injection Hb1 as ->. injection Hb2 as ->.
  destruct (dispatch_objects _ _ _ _ _ _ _ _ _ _ _ _ _ _ _ _ _ _ HI1 Hpost1)
    as (Osl & Opl & Osm & Opp).
  destruct (dispatch_objects _ _ _ _ _ _ _ _ _ _ _ _ _ _ _ _ _ _ HI3 Hpost2)
    as (Osl' & Opl' & Osm' & Opp').
  assert (Hup : ∀ h o, objects w1 !! h = Some o → objects w3 !! h = Some o).
  { intros h o Ho. eapply lookup_weaken; [|exact Hsub23].
    eapply lookup_weaken; [exact Ho|exact Hsub12]. }
  apply Hup in Osl, Opl, Osm, Opp.
  rewrite Opp in Opp'. injection Opp' as -> -> ->.
  rewrite Opl in Opl'. injection Opl' as Hsl ->.
  rewrite Osm in Osm'. injection Osm' as ->.
  rewrite Hsl, Osl' in Osl. by injection Osl as ->.
Qed.

Lemma same_keys_same_pipeline
    b sig sd l this1 cb1 g1 params1 args1 this2 cb2 g2 params2 args2
    mid w0 w1 w2 w3 :
  Inv w0 →
  length params1 = length params2 →
  dispatch b this1 cb1 sig sd g1 l params1 args1 w0 = Ok (tt, w1) →
  run b mid w1 = Ok (tt, w2) →
  dispatch b this2 cb2 sig sd g2 l params2 args2 w2 = Ok (tt, w3) →
  ∃ pp,
    bound_pipelines (new_events w0 w1) = [(cb_handle cb1, pp)] ∧
    bound_pipelines (new_events w2 w3) = [(cb_handle cb2, pp)].
Proof.
  intros HI0 Hsize H1 Hmid H2.
  destruct (dispatch_inv _ _ _ _ _ _ _ _ _ _ _ H1)
    as (_ & (slo & pl & sm & pp & ds & c1 & c2 & c3 & c4 & Hpost1) & HI1).
  destruct (run_step _ _ _ _ Hmid) as [Hgrow HI2].
  destruct (dispatch_inv _ _ _ _ _ _ _ _ _ _ _ H2)
    as (_ & (slo' & pl' & sm' & pp' & ds' & c1' & c2' & c3' & c4' & Hpost2)
        & HI3).
  pose proof (new_events_app _ _ _
    (post_log _ _ _ _ _ _ _ _ _ _ _ _ _ _ _ _ _ _ Hpost1)) as Hev1.
  pose proof (new_events_app _ _ _
    (post_log _ _ _ _ _ _ _ _ _ _ _ _ _ _ _ _ _ _ Hpost2)) as Hev2.
  destruct (post_context _ _ _ _ _ _ _ _ _ _ _ _ _ _ _ _ _ _ Hpost1)
    as (ctx1 & Hc1 & Hsl & Hpl & Hsm & Hpp & _).
  destruct (Hgrow ctx1 Hc1) as (ctx2 & Hc2 & Hle1 & Hle2 & Hle3 & Hle4).
  destruct (post_hit _ _ _ _ _ _ _ _ _ _ _ _ _ _ _ _ _ _ Hpost2 ctx2 Hc2)
    as (Hhit1 & Hhit2 & Hhit3 & Hhit4).
  destruct (Hhit1 slo) as [-> ->]; [by eapply lookup_weaken|].
  rewrite <- Hsize in *.
  destruct (Hhit2 pl) as [-> ->]; [by eapply lookup_weaken|].
  destruct (Hhit3 sm) as [-> ->]; [by eapply lookup_weaken|].
  destruct (Hhit4 pp) as [-> ->]; [by eapply lookup_weaken|].
  exists pp. by rewrite Hev1, Hev2, !bound_pipelines_dispatch_events.
Qed.

Lemma same_pipeline_same_keys_witness :
  ∃ w1 w3 pp,
    dispatch Debug TheContext {| cb_handle := 100 |} hardsigmoid_signature
      hardsigmoid_descriptor (Build_WorkGroup 4 4 1) (Build_WorkGroup 4 4 4)
      [Byte.x04] [ImageObject 50; UniformObject 51] world0 = Ok (tt, w1) ∧
    dispatch Debug (Other 7) {| cb_handle := 101 |} hardsigmoid_signature
      hardsigmoid_descriptor (Build_WorkGroup 8 8 1) (Build_WorkGroup 4 4 4)
      [Byte.x08] [ImageObject 60; UniformObject 61]
      (logged [EvSubmit 100] w1) = Ok (tt, w3) ∧
    bound_pipelines (new_events world0 w1) = [(100, pp)] ∧
    bound_pipelines (new_events (logged [EvSubmit 100] w1) w3) = [(101, pp)] ∧
    sizeof [Byte.x04] = sizeof [Byte.x08].
Proof.
  destruct (dispatch_spec Debug TheContext {| cb_handle := 100 |}
              hardsigmoid_signature hardsigmoid_descriptor
              (Build_WorkGroup 4 4 1) (Build_WorkGroup 4 4 4)
              [Byte.x04] [ImageObject 50; UniformObject 51] world0 eq_refl)
    as ([] & w1 & H1 & ? & ? & ? & ? & ? & ? & ? & ? & ? & Hpost1).
  pose proof (post_ready _ _ _ _ _ _ _ _ _ _ _ _ _ _ _ _ _ _ Hpost1
                Debug eq_refl) as Hready.
  destruct (dispatch_spec Debug (Other 7) {| cb_handle := 101 |}
              hardsigmoid_signature hardsigmoid_descriptor
              (Build_WorkGroup 8 8 1) (Build_WorkGroup 4 4 4)
              [Byte.x08] [ImageObject 60; UniformObject 61]
              (logged [EvSubmit 100] w1) Hready)
    as ([] & w3 & H2 & _).
  destruct (same_keys_same_pipeline Debug hardsigmoid_signature
              hardsigmoid_descriptor (Build_WorkGroup 4 4 4)
              TheContext {| cb_handle := 100 |} (Build_WorkGroup 4 4 1)
              [Byte.x04] [ImageObject 50; UniformObject 51]
              (Other 7) {| cb_handle := 101 |} (Build_WorkGroup 8 8 1)
              [Byte.x08] [ImageObject 60; UniformObject 61]
              [CallSubmit {| cb_handle := 100 |}] world0 w1
              (logged [EvSubmit 100] w1) w3
              Inv_world0 eq_refl H1 eq_refl H2)
    as (pp & Hb1 & Hb2).
  destruct (same_pipeline_same_keys Debug
              TheContext {| cb_handle := 100 |} hardsigmoid_signature
              hardsigmoid_descriptor (Build_WorkGroup 4 4 1)
              (Build_WorkGroup 4 4 4)
              [Byte.x04] [ImageObject 50; UniformObject 51]
              (Other 7) {| cb_handle := 101 |} hardsigmoid_signature
              hardsigmoid_descriptor (Build_WorkGroup 8 8 1)
              (Build_WorkGroup 4 4 4)
              [Byte.x08] [ImageObject 60; UniformObject 61]
              [CallSubmit {| cb_handle := 100 |}] world0 w1
              (logged [EvSubmit 100] w1) w3 pp
              Inv_world0 H1 eq_refl H2 Hb1 Hb2)
    as (_ & _ & _ & Hsize).
  exists w1, w3, pp.
  split_and!; [exact H1|exact H2|exact Hb1|exact Hb2|exact Hsize].
Defined.

(** ** Batches of dispatches *)

Lemma dispatched_dispatch_events cb sig sd g l params args sl pl sm pp
    ds c1 c2 c3 c4 :
  dispatched (dispatch_events cb sig sd g l params args sl pl sm pp ds
                c1 c2 c3 c4)
  = [(cb, g)].
Proof.
  unfold dispatched, dispatch_events, bind_events. rewrite !omap_app.
  by rewrite omap_imap_None.
Qed.

Lemma batch_log b cs : ∀ w,
  forallb is_dispatch cs = true → gpu_ready b w = true →
  ∃ w' evs,
    run b cs w = Ok (tt, w') ∧ gpu_ready b w' = true ∧
    log w' = log w ++ evs ∧
    dispatched evs = cs ≫= recorded ∧
    Forall (λ e, is_submission e = false) evs.
Proof.
  induction cs as [|c cs IH]; intros w Hcs Hr.
  - exists w, []. split_and!; [reflexivity|exact Hr| |reflexivity|constructor].
    by rewrite (right_id_L [] (++)).
  - cbn [forallb] in Hcs. apply andb_true_iff in Hcs as [Hc Hcs].
    destruct c as [this cb sig sd g l params args| | | |]; try discriminate Hc.
    destruct (dispatch_spec b this cb sig sd g l params args w Hr)
      as ([] & w1 & H1 & slo & pl & sm & pp & ds & c1 & c2 & c3 & c4 & Hpost).
    pose proof (post_ready _ _ _ _ _ _ _ _ _ _ _ _ _ _ _ _ _ _ Hpost b Hr)
      as Hr1.
    pose proof (post_log _ _ _ _ _ _ _ _ _ _ _ _ _ _ _ _ _ _ Hpost) as Hlog1.
    destruct (IH w1 Hcs Hr1) as (w' & evs & Hrun & Hr' & Hlog & Hdisp & Hsub).
    exists w', (dispatch_events (cb_handle cb) sig sd g l params args
                  (handle slo) pl sm pp ds c1 c2 c3 c4 ++ evs).
    split_and!.
    + cbn [run]. apply bind_Ok. exists tt, w1. split; [exact H1|exact Hrun].
    + exact Hr'.
    + rewrite Hlog, Hlog1. by rewrite <- (assoc_L (++)).
    + unfold dispatched in *. rewrite omap_app.
      fold (dispatched (dispatch_events (cb_handle cb) sig sd g l params args
                          (handle slo) pl sm pp ds c1 c2 c3 c4)).
      rewrite dispatched_dispatch_events, Hdisp. reflexivity.
    + apply Forall_app. split; [apply submissions_dispatch_events|exact Hsub].
Qed.

(** X10.  A batch of dispatches started with the device and the queue set
    (or in a release build) runs to its end with caches and a pool that do
    not fail, records exactly one dispatch command per call, in call order
    and on the command buffer of the call, and submits nothing to the
    queue. *)
Theorem dispatches_record_without_submitting b cs w :
  forallb is_dispatch cs = true → gpu_ready b w = true →
  ∃ w',
    run b cs w = Ok (tt, w') ∧
    gpu_ready b w' = true ∧
    dispatched (new_events w w') = cs ≫= recorded ∧
    Forall (λ e, is_submission e = false) (new_events w w').
Proof.
  intros Hcs Hr.
  destruct (batch_log b cs w Hcs Hr)
    as (w' & evs & Hrun & Hr' & Hlog & Hdisp & Hsub).
  exists w'. rewrite (new_events_app _ _ _ Hlog).
  split_and!; [exact Hrun|exact Hr'|exact Hdisp|exact Hsub].
Qed.

Lemma dispatches_record_without_submitting_witness :
  ∃ w',
    run Debug
      [ CallDispatch TheContext {| cb_handle := 100 |} hardsigmoid_signature
          hardsigmoid_descriptor (Build_WorkGroup 4 4 1)
          (Build_WorkGroup 4 4 4) [Byte.x04]
          [ImageObject 50; UniformObject 51];
        CallDispatch (Other 7) {| cb_handle := 101 |} hardsigmoid_signature
          hardsigmoid_descriptor (Build_WorkGroup 8 8 1)
          (Build_WorkGroup 4 4 4) [Byte.x08]
          [ImageObject 60; UniformObject 61] ] world0 = Ok (tt, w') ∧
    dispatched (new_events world0 w')
      = [(100, Build_WorkGroup 4 4 1); (101, Build_WorkGroup 8 8 1)].
Proof.
  destruct (dispatches_record_without_submitting Debug
      [ CallDispatch TheContext {| cb_handle := 100 |} hardsigmoid_signature
          hardsigmoid_descriptor (Build_WorkGroup 4 4 1)
          (Build_WorkGroup 4 4 4) [Byte.x04]
          [ImageObject 50; UniformObject 51];
        CallDispatch (Other 7) {| cb_handle := 101 |} hardsigmoid_signature
          hardsigmoid_descriptor (Build_WorkGroup 8 8 1)
          (Build_WorkGroup 4 4 4) [Byte.x08]
          [ImageObject 60; UniformObject 61] ] world0 eq_refl eq_refl)
    as (w' & Hrun & _ & Hdisp & _).
  exists w'. split; [exact Hrun|exact Hdisp].
Defined.

End ContextFurther.

(** * Further properties of the lifetime of the members *)

Section LifetimeFurther.
Import Lifetime.

Lemma initialise_shape throws : ∀ todo done,
  match initialise throws todo done with
  | (tr, Some done') =>
      tr = Init <$> todo ∧ done' = reverse todo ++ done ∧
      ∀ m, m ∈ todo → throws m = false
  | (tr, None) => Body ∉ tr
  end.
Proof.
  induction todo as [|m todo IH]; intros done.
  - cbn. split_and!; [done..|]. by intros m ?%elem_of_nil.
  - rewrite initialise_cons. destruct (throws m) eqn:Hm.
    + unfold unwind. by intros (? & ? & _)%list_elem_of_fmap.
    + specialize (IH (m :: done)).
      destruct (initialise throws todo (m :: done)) as [tr [done'|]];
        cbn [fst snd].
      * destruct IH as (-> & -> & Hno). split_and!; [done| |].
        -- by rewrite reverse_cons, <- (assoc_L (++)).
        -- intros m' [->|?]%elem_of_cons; auto.
      * intros [?|?]%elem_of_cons; [done|auto].
Qed.

Lemma split_at_first {A} (x : A) l1 l2 pre post :
  x ∉ l1 → l1 ++ x :: l2 = pre ++ x :: post →
  (pre = l1 ∧ post = l2) ∨ ∃ pre', pre = l1 ++ x :: pre' ∧ l2 = pre' ++ x :: post.
Proof.
  revert pre. induction l1 as [|a l1 IH]; intros pre Hx Heq.
  - destruct pre as [|b pre]; cbn in Heq.
    + injection Heq as ->. by left.
    + injection Heq as <- ->. right. by exists pre.
  - apply not_elem_of_cons in Hx as [Hxa Hx].
    destruct pre as [|b pre]; cbn in Heq.
    + by injection Heq as <- _.
    + injection Heq as <- Heq.
      destruct (IH pre Hx Heq) as [[-> ->]|(pre' & -> & ->)]; [by left|].
      right. by exists pre'.
Qed.

Lemma Body_not_Init (l : list Member) : Body ∉ Init <$> l.
Proof. by intros (? & ? & _)%list_elem_of_fmap. Qed.

Lemma Body_not_unwind l : Body ∉ unwind l.
Proof. unfold unwind. by intros (? & ? & _)%list_elem_of_fmap. Qed.

Lemma initialised_Inits (l : list Member) :
  initialised (Init <$> l) = l.
Proof.
  induction l as [|m l IH]; [done|].
  by rewrite fmap_cons, initialised_Init, IH.
Qed.

Lemma released_Inits (l : list Member) : released (Init <$> l) = [].
Proof.
  induction l as [|m l IH]; [done|].
  by rewrite fmap_cons, released_Init.
Qed.

(** X11.  Whenever the body of the constructor or of the destructor runs,
    every member of the Context has been initialised, in declaration order,
    and none has been released yet; and the body of the constructor is only
    reached when no member initialiser raised. *)
Theorem bodies_run_on_complete_objects throws body_throws pre post :
  lifecycle throws body_throws = pre ++ Body :: post →
  initialised pre = members ∧ released pre = [] ∧ ∀ m, throws m = false.
Proof.
  unfold lifecycle, constructor.
  pose proof (initialise_shape throws members []) as Hshape.
  destruct (initialise throws members []) as [tr [done|]].
  - destruct Hshape as (-> & -> & Hno).
    assert (Hall : ∀ m, throws m = false).
    { intros m. apply Hno. unfold members. destruct m; set_solver. }
    assert (Hfirst : initialised (Init <$> members) = members
                     ∧ released (Init <$> members) = [])
      by (split; [apply initialised_Inits|apply released_Inits]).
    destruct Hfirst as [Hi Hr].
    destruct body_throws; unfold destructor; intros Heq.
    + destruct (split_at_first Body _ _ pre post (Body_not_Init _) Heq)
        as [[-> _]|(pre' & _ & Hin)]; [done|].
      exfalso. apply (Body_not_unwind (reverse members ++ [])).
      rewrite Hin. set_solver.
    + rewrite <- (assoc_L (++)) in Heq. cbn [app] in Heq.
      destruct (split_at_first Body _ _ pre post (Body_not_Init _) Heq)
        as [[-> _]|(pre' & -> & Hin)]; [done|].
      destruct (split_at_first Body [] _ pre' post (not_elem_of_nil _) Hin)
        as [[-> _]|(pre'' & _ & Hin')].
      * rewrite initialised_app, released_app, Hi, Hr. split_and!; done.
      * exfalso. apply (Body_not_unwind (reverse members ++ [])).
        rewrite Hin'. set_solver.
  - intros Heq. exfalso. apply Hshape. rewrite Heq. set_solver.
Qed.

Lemma bodies_run_on_complete_objects_witness :
  initialised ((Init <$> members) ++ [Body]) = members ∧
  released ((Init <$> members) ++ [Body]) = [].
Proof.
  destruct (bodies_run_on_complete_objects (λ _, false) false
              (fmap (M := list) Init members ++ [Body])
              (fmap (M := list) Release (reverse members)) eq_refl)
    as (Hi & Hr & _).
  split; [exact Hi|exact Hr].
Defined.

End LifetimeFurther.
